(** * react-gamepad-hooks: device registry and input normalizer

    A shallow embedding of [src/index.ts] (the hooks [useGamepadManager] and
    [useGamepadJoystick]) together with the properties its specification
    states about them.

    Modelling conventions.
    - JavaScript numbers are modelled as exact rationals [Q]; [===] on
      numbers is [Qeq_bool], [>] is [Qgt_bool], [>=] is [Qge_bool].  An
      array read past the end ([undefined]) is [None]; [Math.abs(undefined)]
      is [NaN] and every comparison with it is false, which is written out
      where the source can meet it.
    - A [useRef] cell is a field of the record [Refs]; a callback prop is
      modelled by whether it was supplied, and a call of a supplied
      callback appends an [Event] to the trace of the frame.
    - React and the browser are modelled only as far as the hooks use them:
      the state variable of [useState], the closure an effect registers, and
      the queue of [requestAnimationFrame] callbacks. *)

From Stdlib Require Import QArith Qabs ZArith List Bool Lia.
From stdpp Require Import gmap strings pretty sorting.

Local Close Scope Q_scope.
Local Open Scope string_scope.
Local Open Scope list_scope.

(** ** Numbers *)

(** [x > y] *)
Definition Qgt_bool (x y : Q) : bool := negb (Qle_bool x y).

(** [x >= y] *)
Definition Qge_bool (x y : Q) : bool := Qle_bool y x.

(** [x !== y] *)
Definition Qneq_bool (x y : Q) : bool := negb (Qeq_bool x y).

(** ** The browser's Gamepad API *)

Record GamepadButton := { value : Q }.

Record Gamepad := {
  gp_connected : bool;
  gp_id : string;
  gp_index : Z;
  gp_mapping : string;
  gp_axes : list Q;
  gp_buttons : list GamepadButton;
  gp_batteryLevel : option Q
}.

(** [navigator.getGamepads], when the browser has it, returns an array whose
    slots hold a gamepad or [null]. *)
Definition Navigator := option (list (option Gamepad)).

(** [navigator.getGamepads ? navigator.getGamepads() : []] *)
Definition getGamepads (nav : Navigator) : list (option Gamepad) :=
  match nav with
  | Some gps => gps
  | None => []
  end.

(** ** useGamepadManager *)

Module Manager.

Record GamepadInfo := {
  connected : bool;
  id : option string;
  index : option Z;
  mapping : option string;
  axes : option nat;
  buttons : option nat;
  battery : option Q;
  busy : option bool
}.

(** JavaScript truthiness of the optional flag [busy]. *)
Definition truthy (b : option bool) : bool :=
  match b with
  | Some b => b
  | None => false
  end.

(** [g => g.index === i] *)
Definition hasIndex (i : Z) (g : GamepadInfo) : bool :=
  match index g with
  | Some j => Z.eqb j i
  | None => false
  end.

(** [gamepads.find(g => g.index === gp.index)?.busy ?? false] *)
Definition priorBusy (gamepads : list GamepadInfo) (i : Z) : bool :=
  match List.find (hasIndex i) gamepads with
  | Some g => match busy g with Some b => b | None => false end
  | None => false
  end.

(** The descriptor pushed for one non-null slot. *)
Definition describe (gamepads : list GamepadInfo) (gp : Gamepad) : GamepadInfo :=
  {| connected := gp_connected gp;
     id := Some (gp_id gp);
     index := Some (gp_index gp);
     mapping := Some (gp_mapping gp);
     axes := Some (length (gp_axes gp));
     buttons := Some (length (gp_buttons gp));
     battery := gp_batteryLevel gp;
     busy := Some (priorBusy gamepads (gp_index gp)) |}.

(** The [for (const gp of gps)] loop: null slots are skipped. *)
Fixpoint collect (gamepads : list GamepadInfo) (gps : list (option Gamepad))
  : list GamepadInfo :=
  match gps with
  | [] => []
  | None :: rest => collect gamepads rest
  | Some gp :: rest => describe gamepads gp :: collect gamepads rest
  end.

(** [updateGamepads], as a function of the [gamepads] binding its closure
    sees; the result is the list handed to [setGamepads]. *)
Definition updateGamepads (gamepads : list GamepadInfo) (nav : Navigator)
  : list GamepadInfo :=
  collect gamepads (getGamepads nav).

(** [g => g.connected && !g.busy] *)
Definition available (g : GamepadInfo) : bool :=
  connected g && negb (truthy (busy g)).

(** [nextAvailable], reading the published list. *)
Definition nextAvailable (gamepads : list GamepadInfo) : option Z :=
  match List.find available gamepads with
  | Some gp => index gp
  | None => None
  end.

(** [gps.map(gp => (gp.index === index ? { ...gp, busy } : gp))] *)
Definition setBusy (b : bool) (gp : GamepadInfo) : GamepadInfo :=
  {| connected := connected gp;
     id := id gp;
     index := index gp;
     mapping := mapping gp;
     axes := axes gp;
     buttons := buttons gp;
     battery := battery gp;
     busy := Some b |}.

Definition markBusy (i : Z) (b : bool) (gps : list GamepadInfo)
  : list GamepadInfo :=
  List.map (fun gp => if hasIndex i gp then setBusy b gp else gp) gps.

(** *** The hook as a state machine

    The state of the hook is the value of the [useState] variable, with the
    updates asked for so far applied (what the next render will see), plus
    what the effect has registered with the browser. *)

Record Hook := {
  gamepads : list GamepadInfo;
  listening : bool;   (* the two window listeners are registered *)
  polling : bool      (* the 1000 ms interval is running *)
}.

(** [useState<GamepadInfo[]>([])] *)
Definition initialGamepads : list GamepadInfo := [].

(** The effect has the dependency list [[]]: it runs once, after the first
    render, so [updateGamepads], [handle] and the interval callback are the
    closures of that first render, whose [gamepads] is the initial state. *)
Definition effectClosure : Navigator -> list GamepadInfo :=
  updateGamepads initialGamepads.

(** The hook's operations as state-passing computations. *)
Definition Op (A : Type) := Hook -> A * Hook.

(** What the functions returned by one render close over: the [gamepads] of
    that render.  An update asked for later does not change it; the next
    render has a binding of its own. *)
Record Render := { seen : list GamepadInfo }.

Definition render (h : Hook) : Render := {| seen := gamepads h |}.

Definition setGamepads (f : list GamepadInfo -> list GamepadInfo) : Op unit :=
  fun h => (tt, {| gamepads := f (gamepads h);
                   listening := listening h;
                   polling := polling h |}).

(** Mounting: first render, then the effect body. *)
Definition mount (nav : Navigator) : Hook :=
  {| gamepads := effectClosure nav; listening := true; polling := true |}.

(** The cleanup the effect returns. *)
Definition cleanup : Op unit :=
  fun h => (tt, {| gamepads := gamepads h; listening := false; polling := false |}).

(** The [nextAvailable] of render [r]: it reads the list of its render. *)
Definition nextAvailableOp (r : Render) : Op (option Z) :=
  fun h => (nextAvailable (seen r), h).

(** [markBusy] asks for a functional update of the state; it reads no
    render's list. *)
Definition markBusyOp (i : Z) (b : bool) : Op unit :=
  setGamepads (markBusy i b).

Inductive Trigger := GamepadConnected | GamepadDisconnected | IntervalTick.

(** A refresh, whichever way it is triggered, calls the effect's closure. *)
Definition refresh (t : Trigger) (nav : Navigator) : Op unit :=
  fun h =>
    let armed := match t with
                 | GamepadConnected | GamepadDisconnected => listening h
                 | IntervalTick => polling h
                 end in
    if armed then setGamepads (fun _ => effectClosure nav) h else (tt, h).

(** Any history of a mounted hook. *)
Inductive Action :=
| Refresh (t : Trigger) (nav : Navigator)
| MarkBusy (i : Z) (b : bool)
| Cleanup.

Definition act (a : Action) (h : Hook) : Hook :=
  match a with
  | Refresh t nav => snd (refresh t nav h)
  | MarkBusy i b => snd (markBusyOp i b h)
  | Cleanup => snd (cleanup h)
  end.

Definition hookAfter (nav0 : Navigator) (history : list Action) : Hook :=
  fold_left (fun h a => act a h) history (mount nav0).

(** Every descriptor the hook ever publishes carries its slot number. *)
Definition slotted (h : Hook) : Prop :=
  Forall (fun g => exists i, index g = Some i) (gamepads h).

(** The Gamepad API puts the gamepad whose [index] is [k] in slot [k] of the
    array it returns. *)
Definition apiShaped (nav : Navigator) : Prop :=
  forall (k : nat) gp, getGamepads nav !! k = Some (Some gp) -> gp_index gp = Z.of_nat k.

Definition apiShapedAction (a : Action) : Prop :=
  match a with
  | Refresh _ nav => apiShaped nav
  | _ => True
  end.

(** [g] has a smaller slot number than [g']. *)
Definition slotBefore (g g' : GamepadInfo) : Prop :=
  exists i j, index g = Some i /\ index g' = Some j /\ (i < j)%Z.

(** Sample snapshot: two connected devices, in slots 0 and 1. *)
Definition twoPads : Navigator :=
  Some [ Some {| gp_connected := true; gp_id := "pad A"; gp_index := 0;
                 gp_mapping := "standard"; gp_axes := []; gp_buttons := [];
                 gp_batteryLevel := None |};
         Some {| gp_connected := true; gp_id := "pad B"; gp_index := 1;
                 gp_mapping := "standard"; gp_axes := []; gp_buttons := [];
                 gp_batteryLevel := None |} ].

(** The gamepads of the non-null slots of a snapshot, in slot order. *)
Definition presentPads (gps : list (option Gamepad)) : list Gamepad :=
  flat_map (fun slot => match slot with Some gp => [gp] | None => [] end) gps.

(** A descriptor as the hook builds them: slot number and flag defined, the
    slot number not negative. *)
Definition complete (g : GamepadInfo) : Prop :=
  exists i b, index g = Some i /\ busy g = Some b /\ (0 <= i)%Z.

End Manager.

(** ** useGamepadJoystick *)

Module Joystick.

Inductive EmitMode := JOYSTICK_EMIT_ALWAYS | JOYSTICK_EMIT_ON_CHANGE.

Definition STANDARD_BUTTONS : list string :=
  [ "Face1"; "Face2"; "Face3"; "Face4";
    "LeftBumper"; "RightBumper"; "LeftTrigger"; "RightTrigger";
    "Share"; "Options"; "LeftStick"; "RightStick";
    "DPadUp"; "DPadDown"; "DPadLeft"; "DPadRight";
    "Home" ].

Inductive Side := left | right.

(** A [Record<Side, A>]. *)
Record PerSide (A : Type) := { atLeft : A; atRight : A }.
Arguments atLeft {A} _.
Arguments atRight {A} _.

Definition at_side {A} (r : PerSide A) (s : Side) : A :=
  match s with
  | left => atLeft r
  | right => atRight r
  end.

Definition set_side {A} (r : PerSide A) (s : Side) (a : A) : PerSide A :=
  match s with
  | left => {| atLeft := a; atRight := atRight r |}
  | right => {| atLeft := atLeft r; atRight := a |}
  end.

Record Axes := { dx : Q; dy : Q }.

(** The props; a callback prop records whether it was supplied. *)
Record GamepadJoystickProps := {
  id : Z;
  onLeftJoystickMove : bool;
  onRightJoystickMove : bool;
  onButtonBinary : bool;
  onButtonAnalog : bool;
  joystickRateHz : Q;
  joystickEmitMode : EmitMode;
  deadzone : Q;
  triggerThreshold : Q;
  triggerEpsilon : Q
}.

(** The defaults of the destructured parameter. *)
Definition defaultProps (i : Z) : GamepadJoystickProps :=
  {| id := i;
     onLeftJoystickMove := true;
     onRightJoystickMove := true;
     onButtonBinary := true;
     onButtonAnalog := true;
     joystickRateHz := 30;
     joystickEmitMode := JOYSTICK_EMIT_ON_CHANGE;
     deadzone := 1 # 10;
     triggerThreshold := 1 # 10;
     triggerEpsilon := 1 # 100 |}.

(** One call of a callback. *)
Inductive Event :=
| JoystickMove (side : Side) (dx dy : Q)
| ButtonBinary (name : string) (pressed : bool)
| ButtonAnalog (name : string) (v : Q).

(** The four [useRef] cells. *)
Record Refs := {
  lastEmitTimeRef : Q;
  lastNonNeutralRef : PerSide bool;
  prevAxesRef : PerSide Axes;
  prevButtonsRef : gmap string Q
}.

Definition initialRefs : Refs :=
  {| lastEmitTimeRef := 0;
     lastNonNeutralRef := {| atLeft := false; atRight := false |};
     prevAxesRef := {| atLeft := {| dx := 0; dy := 0 |};
                       atRight := {| dx := 0; dy := 0 |} |};
     prevButtonsRef := ∅ |}.

Definition setLastEmitTime (t : Q) (r : Refs) : Refs :=
  {| lastEmitTimeRef := t;
     lastNonNeutralRef := lastNonNeutralRef r;
     prevAxesRef := prevAxesRef r;
     prevButtonsRef := prevButtonsRef r |}.

(** [prev[side] = next; lastNonNeutralRef.current[side] = nonNeutral] *)
Definition setSide (s : Side) (next : Axes) (nonNeutral : bool) (r : Refs) : Refs :=
  {| lastEmitTimeRef := lastEmitTimeRef r;
     lastNonNeutralRef := set_side (lastNonNeutralRef r) s nonNeutral;
     prevAxesRef := set_side (prevAxesRef r) s next;
     prevButtonsRef := prevButtonsRef r |}.

(** [prevButtonsRef.current[name] = value] *)
Definition setButton (name : string) (v : Q) (r : Refs) : Refs :=
  {| lastEmitTimeRef := lastEmitTimeRef r;
     lastNonNeutralRef := lastNonNeutralRef r;
     prevAxesRef := prevAxesRef r;
     prevButtonsRef := <[name := v]> (prevButtonsRef r) |}.

(** *** Steps of a frame: the refs are threaded, the calls are collected *)

Definition Step := Refs -> Refs * list Event.

Definition skip : Step := fun r => (r, []).

Definition andThen (f g : Step) : Step :=
  fun r =>
    let (r1, e1) := f r in
    let (r2, e2) := g r1 in
    (r2, e1 ++ e2).

Notation "f >> g" := (andThen f g) (at level 62, right associativity).

(** [arr.forEach((x, i) => f(x, i))], from index [i] on. *)
Fixpoint forEachFrom {A} (f : A -> nat -> Step) (l : list A) (i : nat) : Step :=
  match l with
  | [] => skip
  | x :: rest => f x i >> forEachFrom f rest (S i)
  end.

Definition forEach {A} (f : A -> nat -> Step) (l : list A) : Step :=
  forEachFrom f l 0.

(** [1000 / joystickRateHz] can be infinite in JavaScript: a rate of 0
    gives [Infinity], which no elapsed time reaches. *)
Definition intervalMs (p : GamepadJoystickProps) : Q :=
  (1000 / joystickRateHz p)%Q.

(** [(now - lastEmitTimeRef.current) >= intervalMs] *)
Definition shouldEmit (p : GamepadJoystickProps) (now : Q) (r : Refs) : bool :=
  if Qeq_bool (joystickRateHz p) 0 then false
  else Qge_bool (now - lastEmitTimeRef r)%Q (intervalMs p).

(** [Math.abs(a) > deadzone ? a : 0] on [a = gp.axes[k]]; a missing axis is
    [undefined], whose absolute value exceeds nothing. *)
Definition filterX (deadzone : Q) (a : option Q) : Q :=
  match a with
  | Some v => if Qgt_bool (Qabs v) deadzone then v else 0%Q
  | None => 0%Q
  end.

(** [Math.abs(a) > deadzone ? -a : 0] *)
Definition filterY (deadzone : Q) (a : option Q) : Q :=
  match a with
  | Some v => if Qgt_bool (Qabs v) deadzone then (- v)%Q else 0%Q
  | None => 0%Q
  end.

Definition axesRaw (p : GamepadJoystickProps) (gp : Gamepad) : PerSide Axes :=
  {| atLeft := {| dx := filterX (deadzone p) (gp_axes gp !! 0%nat);
                  dy := filterY (deadzone p) (gp_axes gp !! 1%nat) |};
     atRight := {| dx := filterX (deadzone p) (gp_axes gp !! 2%nat);
                   dy := filterY (deadzone p) (gp_axes gp !! 3%nat) |} |}.

(** [next.dx === 0 && next.dy === 0] *)
Definition isNeutral (a : Axes) : bool :=
  Qeq_bool (dx a) 0 && Qeq_bool (dy a) 0.

(** [next.dx !== prev.dx || next.dy !== prev.dy] *)
Definition changed (next prev : Axes) : bool :=
  Qneq_bool (dx next) (dx prev) || Qneq_bool (dy next) (dy prev).

Definition callbackOf (p : GamepadJoystickProps) (s : Side) : bool :=
  match s with
  | left => onLeftJoystickMove p
  | right => onRightJoystickMove p
  end.

(** The calls the body of the axes [forEach] makes for one side. *)
Definition sideCalls (p : GamepadJoystickProps) (eligible : bool)
    (next : Axes) (s : Side) (r : Refs) : list Event :=
  let prev := prevAxesRef r in
  let callback := callbackOf p s in
  match joystickEmitMode p with
  | JOYSTICK_EMIT_ALWAYS =>
      if callback && eligible then [JoystickMove s (dx next) (dy next)] else []
  | JOYSTICK_EMIT_ON_CHANGE =>
      let wasNonNeutral := at_side (lastNonNeutralRef r) s in
      if isNeutral next then
        if wasNonNeutral && callback then [JoystickMove s 0 0] else []
      else
        if callback && (changed next (at_side prev s) || eligible)
        then [JoystickMove s (dx next) (dy next)] else []
  end.

Definition sideStep (p : GamepadJoystickProps) (eligible : bool)
    (raw : PerSide Axes) (s : Side) : Step :=
  fun r =>
    let next := at_side raw s in
    (setSide s next (negb (isNeutral next)) r, sideCalls p eligible next s r).

(** [STANDARD_BUTTONS[i] ?? `Button${i}`] *)
Definition buttonName (i : nat) : string :=
  match STANDARD_BUTTONS !! i with
  | Some name => name
  | None => "Button" +:+ pretty i
  end.

(** [prevButtonsRef.current[name] ?? 0] *)
Definition prevValueOf (r : Refs) (name : string) : Q :=
  match prevButtonsRef r !! name with
  | Some v => v
  | None => 0%Q
  end.

Definition isTrigger (i : nat) : bool := Nat.eqb i 6 || Nat.eqb i 7.

(** The calls the body of the buttons [forEach] makes for one button. *)
Definition buttonCalls (p : GamepadJoystickProps) (v : Q) (i : nat) (r : Refs)
  : list Event :=
  let name := buttonName i in
  let prevValue := prevValueOf r name in
  let pressed := Qgt_bool v (triggerThreshold p) in
  let prevPressed := Qgt_bool prevValue (triggerThreshold p) in
  (if negb prevPressed && pressed && onButtonBinary p
   then [ButtonBinary name true] else [])
  ++ (if prevPressed && negb pressed && onButtonBinary p
      then [ButtonBinary name false] else [])
  ++ (if isTrigger i && Qgt_bool (Qabs (v - prevValue)) (triggerEpsilon p)
         && onButtonAnalog p
      then [ButtonAnalog name v] else []).

Definition buttonStep (p : GamepadJoystickProps) (btn : GamepadButton) (i : nat)
  : Step :=
  fun r => (setButton (buttonName i) (value btn) r, buttonCalls p (value btn) i r).

(** [gps[id]]: no element at a negative index or past the end. *)
Definition gamepadAt (gps : list (option Gamepad)) (i : Z) : option Gamepad :=
  if (i <? 0)%Z then None
  else match gps !! Z.to_nat i with
       | Some slot => slot
       | None => None
       end.

(** The body of [poll] once the gamepad is there. *)
Definition processFrame (p : GamepadJoystickProps) (gp : Gamepad) (now : Q) : Step :=
  fun r =>
    let eligible := shouldEmit p now r in
    let raw := axesRaw p gp in
    (sideStep p eligible raw left >>
     sideStep p eligible raw right >>
     forEach (buttonStep p) (gp_buttons gp) >>
     (fun r' => (if eligible then setLastEmitTime now r' else r', []))) r.

(** [poll]; in both branches it ends with [requestAnimationFrame(poll)],
    which the frame queue below accounts for. *)
Definition poll (p : GamepadJoystickProps) (nav : Navigator) (now : Q) : Step :=
  match gamepadAt (getGamepads nav) (id p) with
  | None => skip
  | Some gp => processFrame p gp now
  end.

(** *** The component and the animation-frame queue

    [rafQueue] holds the [poll] closures waiting for the next frame; a
    closure is identified by the props it captured.  The refs belong to
    the component instance and every closure of it reaches the same
    cells. *)

Record Hook := {
  refs : Refs;
  rafQueue : list GamepadJoystickProps
}.

(** The effect body: [lastEmitTimeRef.current = performance.now();
    requestAnimationFrame(poll)]. *)
Definition runEffect (p : GamepadJoystickProps) (now : Q) (h : Hook) : Hook :=
  {| refs := setLastEmitTime now (refs h);
     rafQueue := rafQueue h ++ [p] |}.

(** The effect callback has no [return]: React is given no cleanup. *)
Definition effectCleanup : option (Hook -> Hook) := None.

(** What React runs before re-running the effect and on unmount. *)
Definition teardown (h : Hook) : Hook :=
  match effectCleanup with
  | Some c => c h
  | None => h
  end.

Definition mount (p : GamepadJoystickProps) (now : Q) : Hook :=
  runEffect p now {| refs := initialRefs; rafQueue := [] |}.

(** A render in which a dependency of the effect changed. *)
Definition reconfigure (p : GamepadJoystickProps) (now : Q) (h : Hook) : Hook :=
  runEffect p now (teardown h).

Definition unmount (h : Hook) : Hook := teardown h.

(** One animation frame: the browser takes the queued callbacks and runs
    them in order; [clock k] is what [performance.now()] returns in the
    k-th of them.  Every [poll] queues itself again. *)
Fixpoint runQueued (q : list GamepadJoystickProps) (nav : Navigator)
    (clock : nat -> Q) (k : nat) (r : Refs)
  : Refs * list Event * list GamepadJoystickProps :=
  match q with
  | [] => (r, [], [])
  | p :: rest =>
      let (r1, e1) := poll p nav (clock k) r in
      let '(r2, e2, requeued) := runQueued rest nav clock (S k) r1 in
      (r2, e1 ++ e2, p :: requeued)
  end.

Definition animationFrame (nav : Navigator) (clock : nat -> Q) (h : Hook)
  : Hook * list Event :=
  let '(r, evs, requeued) := runQueued (rafQueue h) nav clock 0 (refs h) in
  ({| refs := r; rafQueue := requeued |}, evs).

(** *** Reading a trace *)

Definition movesOf (s : Side) (evs : list Event) : list (Q * Q) :=
  flat_map (fun e => match e with
                     | JoystickMove s' x y =>
                         match s, s' with
                         | left, left | right, right => [(x, y)]
                         | _, _ => []
                         end
                     | _ => []
                     end) evs.

Definition binaryOf (name : string) (evs : list Event) : list bool :=
  flat_map (fun e => match e with
                     | ButtonBinary n b => if String.eqb n name then [b] else []
                     | _ => []
                     end) evs.

Definition analogOf (name : string) (evs : list Event) : list Q :=
  flat_map (fun e => match e with
                     | ButtonAnalog n v => if String.eqb n name then [v] else []
                     | _ => []
                     end) evs.

(** A run of one [poll] closure over successive frames. *)
Fixpoint pollAll (p : GamepadJoystickProps) (frames : list (Navigator * Q)) : Step :=
  match frames with
  | [] => skip
  | (nav, now) :: rest => poll p nav now >> pollAll p rest
  end.

(** Any history of the refs of one component instance: frames polled by
    closures of any props, and runs of the effect. *)
Inductive Action :=
| Polled (p : GamepadJoystickProps) (nav : Navigator) (now : Q)
| EffectRun (now : Q).

Definition act (a : Action) (r : Refs) : Refs :=
  match a with
  | Polled p nav now => fst (poll p nav now r)
  | EffectRun now => setLastEmitTime now r
  end.

Definition refsAfter (history : list Action) : Refs :=
  fold_left (fun r a => act a r) history initialRefs.

(** The refs just before the buttons loop of a frame. *)
Definition afterAxes (p : GamepadJoystickProps) (gp : Gamepad) (r : Refs) : Refs :=
  let raw := axesRaw p gp in
  setSide right (atRight raw) (negb (isNeutral (atRight raw)))
    (setSide left (atLeft raw) (negb (isNeutral (atLeft raw))) r).

(** The flag of [lastNonNeutralRef] says whether the remembered pair of
    that side is non-neutral. *)
Definition neutralTracked (r : Refs) : Prop :=
  forall s, at_side (lastNonNeutralRef r) s
            = negb (isNeutral (at_side (prevAxesRef r) s)).

(** [prevValue > triggerThreshold] for the channel called [name]. *)
Definition wasPressed (p : GamepadJoystickProps) (r : Refs) (name : string) : bool :=
  Qgt_bool (prevValueOf r name) (triggerThreshold p).

(** The button calls of a trace that carry a given channel name. *)
Definition buttonEventsOf (name : string) (evs : list Event) : list Event :=
  List.filter (fun e => match e with
                        | JoystickMove _ _ _ => false
                        | ButtonBinary n _ | ButtonAnalog n _ => String.eqb n name
                        end) evs.

(** [chain b l b']: starting from the pressed state [b], the edge events
    [l] flip the state each time and leave it at [b']. *)
Inductive chain : bool -> list bool -> bool -> Prop :=
| chain_nil b : chain b [] b
| chain_cons b l b' : chain (negb b) l b' -> chain b (negb b :: l) b'.

(** Consecutive entries differ. *)
Definition alternating (l : list bool) : Prop :=
  forall k b b', l !! k = Some b -> l !! S k = Some b' -> b' = negb b.

(** The filtered value computed from raw axis [k] (0 to 3). *)
Definition axisOutput (p : GamepadJoystickProps) (gp : Gamepad) (k : nat) : Q :=
  match k with
  | 0 => dx (atLeft (axesRaw p gp))
  | 1 => dy (atLeft (axesRaw p gp))
  | 2 => dx (atRight (axesRaw p gp))
  | _ => dy (atRight (axesRaw p gp))
  end%nat.

(** Sample devices: a standard pad with the given axis and button values,
    alone in slot 0. *)
Definition pad (axes : list Q) (buttons : list Q) : Gamepad :=
  {| gp_connected := true;
     gp_id := "pad";
     gp_index := 0;
     gp_mapping := "standard";
     gp_axes := axes;
     gp_buttons := List.map (fun v => {| value := v |}) buttons;
     gp_batteryLevel := None |}.

(** A pad whose left trigger (button 6) reads [v], all else at rest. *)
Definition leftTriggerAt (v : Q) : Gamepad :=
  pad [0; 0; 0; 0]%Q [0; 0; 0; 0; 0; 0; v]%Q.

Definition only (gp : Gamepad) : Navigator := Some [Some gp].

(** The trigger scenario of the specification: threshold 0.1, epsilon
    0.01, left trigger reading 0.0, 0.05, 0.15, 0.3, 0.0 on five frames. *)
Definition triggerScenario : list (Navigator * Q) :=
  [ (only (leftTriggerAt 0), 16);
    (only (leftTriggerAt (5 # 100)), 33);
    (only (leftTriggerAt (15 # 100)), 50);
    (only (leftTriggerAt (3 # 10)), 66);
    (only (leftTriggerAt 0), 83) ]%Q.

(** A pad whose left stick reads [x] horizontally, all else at rest. *)
Definition leftStickAt (x : Q) : Gamepad :=
  pad [x; 0; 0; 0]%Q [].

(** The axis scenario of the specification: left X reading 0.0, 0.5,
    0.05, 0.0 on four frames, at the given times. *)
Definition axisScenario (t1 t2 t3 t4 : Q) : list (Navigator * Q) :=
  [ (only (leftStickAt 0), t1);
    (only (leftStickAt (1 # 2)), t2);
    (only (leftStickAt (5 # 100)), t3);
    (only (leftStickAt 0), t4) ].

(** The props with another [triggerThreshold]. *)
Definition withThreshold (t : Q) (p : GamepadJoystickProps) : GamepadJoystickProps :=
  {| id := id p;
     onLeftJoystickMove := onLeftJoystickMove p;
     onRightJoystickMove := onRightJoystickMove p;
     onButtonBinary := onButtonBinary p;
     onButtonAnalog := onButtonAnalog p;
     joystickRateHz := joystickRateHz p;
     joystickEmitMode := joystickEmitMode p;
     deadzone := deadzone p;
     triggerThreshold := t;
     triggerEpsilon := triggerEpsilon p |}.

(** *** Further ways of reading a frame *)

Definition isButtonEvent (e : Event) : bool :=
  match e with
  | JoystickMove _ _ _ => false
  | ButtonBinary _ _ | ButtonAnalog _ _ => true
  end.

(** The button calls of a trace, of whatever channel. *)
Definition buttonsOnly (evs : list Event) : list Event :=
  List.filter isButtonEvent evs.

(** The calls of the buttons loop if every pass compared against the same
    refs [r]: channel after channel, in index order. *)
Definition frameButtonCalls (p : GamepadJoystickProps) (gp : Gamepad) (r : Refs)
  : list Event :=
  concat (imap (fun i btn => buttonCalls p (value btn) i r) (gp_buttons gp)).

(** The cells of [prevButtonsRef] after the buttons loop has run over [l]
    from channel [i] on. *)
Fixpoint rememberAll (l : list GamepadButton) (i : nat) (m : gmap string Q)
  : gmap string Q :=
  match l with
  | [] => m
  | btn :: rest => rememberAll rest (S i) (<[buttonName i := value btn]> m)
  end.

(** The props with the four callbacks supplied or not. *)
Definition withCallbacks (onLeft onRight onBinary onAnalog : bool)
    (p : GamepadJoystickProps) : GamepadJoystickProps :=
  {| id := id p;
     onLeftJoystickMove := onLeft;
     onRightJoystickMove := onRight;
     onButtonBinary := onBinary;
     onButtonAnalog := onAnalog;
     joystickRateHz := joystickRateHz p;
     joystickEmitMode := joystickEmitMode p;
     deadzone := deadzone p;
     triggerThreshold := triggerThreshold p;
     triggerEpsilon := triggerEpsilon p |}.

(** Whether a call reaches a consumer that supplied these callbacks. *)
Definition keeps (onLeft onRight onBinary onAnalog : bool) (e : Event) : bool :=
  match e with
  | JoystickMove left _ _ => onLeft
  | JoystickMove right _ _ => onRight
  | ButtonBinary _ _ => onBinary
  | ButtonAnalog _ _ => onAnalog
  end.

(** A reported coordinate is 0 or lies outside the deadzone. *)
Definition outsideDeadzone (deadzone x : Q) : Prop :=
  (x == 0)%Q \/ (deadzone < Qabs x)%Q.

(** The times of the rate-eligible processed frames of a run. *)
Fixpoint eligibleTimes (p : GamepadJoystickProps) (frames : list (Navigator * Q))
    (r : Refs) : list Q :=
  match frames with
  | [] => []
  | (nav, now) :: rest =>
      (match gamepadAt (getGamepads nav) (id p) with
       | Some _ => if shouldEmit p now r then [now] else []
       | None => []
       end)
      ++ eligibleTimes p rest (fst (poll p nav now r))
  end.

(** Each time lies at least [gap] after the one before it, the first one
    after [last]. *)
Fixpoint spacedFrom (last gap : Q) (ts : list Q) : Prop :=
  match ts with
  | [] => True
  | t :: rest => (gap <= t - last)%Q /\ spacedFrom t gap rest
  end.

End Joystick.

(** ** The earlier useGamepadJoystick

    The repository also holds an earlier version of the hook: the deadzone
    is the constant 0.1, the axes are looked at on rate-eligible frames
    only, and a side's remembered pair is the pair last reported. *)

Module Legacy.
Import Joystick.

Record GamepadJoystickProps := {
  id : Z;
  onLeftJoystickMove : bool;
  onRightJoystickMove : bool;
  onButtonBinary : bool;
  onButtonAnalog : bool;
  joystickRateHz : Q;
  joystickEmitMode : EmitMode;
  triggerThreshold : Q;
  triggerEpsilon : Q
}.

(** The three [useRef] cells. *)
Record Refs := {
  lastUpdateRef : Q;
  prevAxesRef : PerSide Axes;
  prevButtonsRef : gmap string Q
}.

Definition initialRefs : Refs :=
  {| lastUpdateRef := 0;
     prevAxesRef := {| atLeft := {| dx := 0; dy := 0 |};
                       atRight := {| dx := 0; dy := 0 |} |};
     prevButtonsRef := ∅ |}.

Definition Step := Refs -> Refs * list Event.

Definition andThen (f g : Step) : Step :=
  fun r =>
    let (r1, e1) := f r in
    let (r2, e2) := g r1 in
    (r2, e1 ++ e2).

(** [now - lastUpdateRef.current >= intervalMs], with [intervalMs] infinite
    for a rate of 0. *)
Definition allowAxesUpdate (p : GamepadJoystickProps) (now : Q) (r : Refs) : bool :=
  if Qeq_bool (joystickRateHz p) 0 then false
  else Qge_bool (now - lastUpdateRef r)%Q (1000 / joystickRateHz p)%Q.

Definition callbackOf (p : GamepadJoystickProps) (s : Side) : bool :=
  match s with
  | left => onLeftJoystickMove p
  | right => onRightJoystickMove p
  end.

(** The block [if (onLeftJoystickMove) { ... }] and its twin for the right
    side: the remembered pair is written only when the call is made. *)
Definition sideUpdate (p : GamepadJoystickProps) (s : Side) (x y : Q) : Step :=
  fun r =>
    if callbackOf p s then
      let prev := at_side (prevAxesRef r) s in
      let changed := Qneq_bool x (dx prev) || Qneq_bool y (dy prev) in
      if match joystickEmitMode p with
         | JOYSTICK_EMIT_ALWAYS => true
         | JOYSTICK_EMIT_ON_CHANGE => false
         end || changed
      then ({| lastUpdateRef := lastUpdateRef r;
               prevAxesRef := set_side (prevAxesRef r) s {| dx := x; dy := y |};
               prevButtonsRef := prevButtonsRef r |},
            [JoystickMove s x y])
      else (r, [])
    else (r, []).

(** The block [if (allowAxesUpdate) { ... }]. *)
Definition axesUpdate (p : GamepadJoystickProps) (gp : Gamepad) (now : Q) : Step :=
  fun r =>
    if allowAxesUpdate p now r then
      let r0 := {| lastUpdateRef := now;
                   prevAxesRef := prevAxesRef r;
                   prevButtonsRef := prevButtonsRef r |} in
      let leftX := filterX (1 # 10) (gp_axes gp !! 0%nat) in
      let leftY := filterY (1 # 10) (gp_axes gp !! 1%nat) in
      let rightX := filterX (1 # 10) (gp_axes gp !! 2%nat) in
      let rightY := filterY (1 # 10) (gp_axes gp !! 3%nat) in
      andThen (sideUpdate p left leftX leftY) (sideUpdate p right rightX rightY) r0
    else (r, []).

(** The body of the buttons [forEach] for one button. *)
Definition buttonStep (p : GamepadJoystickProps) (btn : GamepadButton) (idx : nat)
  : Step :=
  fun r =>
    let name := buttonName idx in
    let isTrigger := Nat.eqb idx 6 || Nat.eqb idx 7 in
    let v := value btn in
    let pressed := Qgt_bool v (triggerThreshold p) in
    let prevValue := match prevButtonsRef r !! name with
                     | Some w => w
                     | None => 0%Q
                     end in
    let prevPressed := Qgt_bool prevValue (triggerThreshold p) in
    ({| lastUpdateRef := lastUpdateRef r;
        prevAxesRef := prevAxesRef r;
        prevButtonsRef := <[name := v]> (prevButtonsRef r) |},
     (if negb prevPressed && pressed && onButtonBinary p
      then [ButtonBinary name true] else [])
     ++ (if prevPressed && negb pressed && onButtonBinary p
         then [ButtonBinary name false] else [])
     ++ (if isTrigger && Qgt_bool (Qabs (v - prevValue)) (triggerEpsilon p)
            && onButtonAnalog p
         then [ButtonAnalog name v] else [])).

Fixpoint forEachFrom (f : GamepadButton -> nat -> Step) (l : list GamepadButton)
    (i : nat) : Step :=
  match l with
  | [] => fun r => (r, [])
  | x :: rest => andThen (f x i) (forEachFrom f rest (S i))
  end.

(** [pollGamepad]; it ends with [requestAnimationFrame(pollGamepad)] in
    both branches. *)
Definition pollGamepad (p : GamepadJoystickProps) (nav : Navigator) (now : Q) : Step :=
  match gamepadAt (getGamepads nav) (id p) with
  | None => fun r => (r, [])
  | Some gp =>
      andThen (axesUpdate p gp now) (forEachFrom (buttonStep p) (gp_buttons gp) 0)
  end.

(** A run of one [pollGamepad] closure over successive frames. *)
Fixpoint pollAll (p : GamepadJoystickProps) (frames : list (Navigator * Q)) : Step :=
  match frames with
  | [] => fun r => (r, [])
  | (nav, now) :: rest => andThen (pollGamepad p nav now) (pollAll p rest)
  end.

(** The same settings as props of the later version, whose deadzone is a
    prop. *)
Definition toCurrent (p : GamepadJoystickProps) : Joystick.GamepadJoystickProps :=
  {| Joystick.id := id p;
     Joystick.onLeftJoystickMove := onLeftJoystickMove p;
     Joystick.onRightJoystickMove := onRightJoystickMove p;
     Joystick.onButtonBinary := onButtonBinary p;
     Joystick.onButtonAnalog := onButtonAnalog p;
     Joystick.joystickRateHz := joystickRateHz p;
     Joystick.joystickEmitMode := joystickEmitMode p;
     Joystick.deadzone := 1 # 10;
     Joystick.triggerThreshold := triggerThreshold p;
     Joystick.triggerEpsilon := triggerEpsilon p |}.

(** For every reported pair, in order: it differs from the pair before it,
    the first one from [prev]. *)
Fixpoint eachChanged (prev : Axes) (moves : list (Q * Q)) : Prop :=
  match moves with
  | [] => True
  | (x, y) :: rest =>
      Qneq_bool x (dx prev) || Qneq_bool y (dy prev) = true
      /\ eachChanged {| dx := x; dy := y |} rest
  end.

(** The refs of the two versions agree on what both keep. *)
Definition sameCells (r : Refs) (r' : Joystick.Refs) : Prop :=
  lastUpdateRef r = lastEmitTimeRef r'
  /\ prevButtonsRef r = Joystick.prevButtonsRef r'.

Definition defaultProps (i : Z) : GamepadJoystickProps :=
  {| id := i;
     onLeftJoystickMove := true;
     onRightJoystickMove := true;
     onButtonBinary := true;
     onButtonAnalog := true;
     joystickRateHz := 30;
     joystickEmitMode := JOYSTICK_EMIT_ON_CHANGE;
     triggerThreshold := 1 # 10;
     triggerEpsilon := 1 # 100 |}.

End Legacy.

(** ** The sample component GameJoystickControls

    The selection logic of the sample: an effect that claims the next
    available device when none is selected, and the click handler of the
    device list.  The state is the registry's list and [selectedId]. *)

Module Controls.
Import Manager.

Record State := {
  gamepads : list GamepadInfo;
  selectedId : option Z      (* [number | null] *)
}.

(** The effect: [if (selectedId !== null) return; const nextId =
    nextAvailable(); if (nextId !== null) { setSelectedId(nextId);
    markBusy(nextId, true); }] *)
Definition autoSelect (st : State) : State :=
  match selectedId st with
  | Some _ => st
  | None =>
      match nextAvailable (gamepads st) with
      | Some nextId =>
          {| gamepads := markBusy nextId true (gamepads st);
             selectedId := Some nextId |}
      | None => st
      end
  end.

(** The [onClick] of the button of descriptor [gp]: [if (selectedId !==
    null) markBusy(selectedId, false); setSelectedId(gp.index ?? null);
    markBusy(gp.index ?? -1, true);], the two list updates applied in the
    order they were asked for. *)
Definition click (gp : GamepadInfo) (st : State) : State :=
  let freed := match selectedId st with
               | Some s => markBusy s false (gamepads st)
               | None => gamepads st
               end in
  {| gamepads := markBusy (match index gp with Some i => i | None => (-1)%Z end)
                   true freed;
     selectedId := index gp |}.

(** [id: selectedId ?? -1], the device index handed to useGamepadJoystick. *)
Definition joystickId (st : State) : Z :=
  match selectedId st with
  | Some s => s
  | None => (-1)%Z
  end.

Inductive UiAction :=
| AutoSelect
| Click (gp : GamepadInfo).

Definition ui (a : UiAction) (st : State) : State :=
  match a with
  | AutoSelect => autoSelect st
  | Click gp => click gp st
  end.

Definition uiAfter (actions : list UiAction) (st : State) : State :=
  fold_left (fun st a => ui a st) actions st.

(** The busy descriptors are those of the selected slot, and no other. *)
Definition ownsSelected (st : State) : Prop :=
  Forall (fun g => truthy (busy g)
                   = match selectedId st with
                     | Some s => hasIndex s g
                     | None => false
                     end) (gamepads st).

(** A click on a descriptor that carries its slot number. *)
Definition onSlotted (a : UiAction) : Prop :=
  match a with
  | AutoSelect => True
  | Click gp => exists i, index gp = Some i
  end.

End Controls.

(** ** The sample's useFrequencyMeter

    [trigger(id)] records the time of an event of kind [id] in a sliding
    window and publishes the frequency the window shows.  The windows are
    kept in a plain object, so a name the object inherits from its
    prototype is found there although it was never stored. *)

Module FrequencyMeter.

(** The values [1000 / avgInterval] can take: a finite number, [Infinity]
    for a zero interval, [NaN] for the average of no interval. *)
Inductive JsNumber :=
| Finite (q : Q)
| Infinity
| NaN.

Record State := {
  timestamps : gmap string (list Q);        (* own properties of the ref *)
  frequencies : gmap string JsNumber        (* the state variable *)
}.

Definition initial : State := {| timestamps := ∅; frequencies := ∅ |}.

(** The property names every plain object inherits from [Object.prototype]
    in ECMAScript. *)
Definition objectPrototypeKeys : list string :=
  [ "constructor"; "__defineGetter__"; "__defineSetter__"; "hasOwnProperty";
    "__lookupGetter__"; "__lookupSetter__"; "isPrototypeOf";
    "propertyIsEnumerable"; "toString"; "valueOf"; "__proto__";
    "toLocaleString" ].

(** Whether [i] names a property inherited from a prototype with the keys
    [proto]; all of them hold functions or objects, which are truthy and
    have no [push]. *)
Definition inherited (proto : list string) (i : string) : bool :=
  bool_decide (i ∈ proto).

(** [ts.slice(1).map((t, i) => t - ts[i])] *)
Fixpoint intervals (ts : list Q) : list Q :=
  match ts with
  | a :: (b :: _) as rest => (b - a)%Q :: intervals rest
  | _ => []
  end.

(** [intervals.reduce((a, b) => a + b, 0)] *)
Definition total (l : list Q) : Q := fold_left Qplus l 0%Q.

(** [1000 / (total / intervals.length)]: [0 / 0] is [NaN], and 1000 over a
    zero average is [Infinity]. *)
Definition frequencyOf (ts : list Q) : JsNumber :=
  match intervals ts with
  | [] => NaN
  | _ :: _ =>
      let avgInterval :=
        (total (intervals ts) / inject_Z (Z.of_nat (length (intervals ts))))%Q in
      if Qeq_bool avgInterval 0 then Infinity else Finite (1000 / avgInterval)
  end.

(** The window after [ts.push(now); if (ts.length > windowSize) ts.shift()]. *)
Definition pushed (windowSize : Q) (ts : list Q) (now : Q) : list Q :=
  let ts1 := ts ++ [now] in
  if Qgt_bool (inject_Z (Z.of_nat (length ts1))) windowSize then tail ts1 else ts1.

(** [trigger(id)] at time [now], for a [windowSize] that stays the same;
    [None] when the call throws, which it does before anything is written:
    [timestamps.current[id]] then is an inherited value, the
    initialisation is skipped and [ts.push] is not a function. *)
Definition trigger (proto : list string) (windowSize : Q) (i : string) (now : Q)
    (st : State) : option State :=
  let publish ts :=
    {| timestamps := <[i := ts]> (timestamps st);
       frequencies := if (1 <? length ts)%nat
                      then <[i := frequencyOf ts]> (frequencies st)
                      else frequencies st |} in
  match timestamps st !! i with
  | Some ts0 => Some (publish (pushed windowSize ts0 now))
  | None =>
      if inherited proto i then None
      else Some (publish (pushed windowSize [] now))
  end.

(** A sequence of calls [trigger(id)] with their times, oldest first; a call
    that throws leaves the state to the calls after it. *)
Definition triggerAll (proto : list string) (windowSize : Q)
    (calls : list (string * Q)) (st : State) : State :=
  fold_left (fun st c => match trigger proto windowSize (fst c) (snd c) st with
                         | Some st' => st'
                         | None => st
                         end) calls st.

(** The times at which [trigger(i)] was called. *)
Definition timesOf (i : string) (calls : list (string * Q)) : list Q :=
  List.map snd (List.filter (fun c => String.eqb (fst c) i) calls).

(** The own window of [i], empty when there is none. *)
Definition window (st : State) (i : string) : list Q :=
  match timestamps st !! i with
  | Some ts => ts
  | None => []
  end.

(** No window was ever stored under an inherited name. *)
Definition noInheritedKeys (proto : list string) (st : State) : Prop :=
  forall i, inherited proto i = true -> timestamps st !! i = None.

End FrequencyMeter.

(** * Properties of the device registry *)

Section ManagerProperties.
Import Manager.

Lemma find_some_split {A} (f : A -> bool) (l : list A) (x : A) :
  List.find f l = Some x <->
  exists before after,
    l = before ++ x :: after /\ Forall (fun y => f y = false) before /\ f x = true.
Proof.
  split.
  - induction l as [|a l IH]; simpl; [discriminate|].
    destruct (f a) eqn:Ha.
    + intros [= ->]. exists [], l. repeat split; auto.
    + intros Hfind. destruct (IH Hfind) as (before & after & -> & Hb & Hx).
      exists (a :: before), after. repeat split; auto.
  - intros (before & after & -> & Hb & Hx).
    induction Hb as [|y before Hy _ IH]; simpl.
    + now rewrite Hx.
    + now rewrite Hy.
Qed.

Lemma find_none_all {A} (f : A -> bool) (l : list A) :
  List.find f l = None <-> Forall (fun y => f y = false) l.
Proof.
  induction l as [|a l IH]; simpl.
  - split; auto.
  - destruct (f a) eqn:Ha; split.
    + discriminate.
    + intros H. inversion H; congruence.
    + intros H. constructor; [assumption | now apply IH].
    + intros H. inversion H; subst. now apply IH.
Qed.

Lemma collect_slotted known gps :
  Forall (fun g => exists i, index g = Some i) (collect known gps).
Proof.
  induction gps as [|[gp|] gps IH]; simpl; auto.
  constructor; [now exists (gp_index gp) | assumption].
Qed.

Lemma markBusy_slotted i b gps :
  Forall (fun g => exists j, index g = Some j) gps ->
  Forall (fun g => exists j, index g = Some j) (markBusy i b gps).
Proof.
  induction 1 as [|g gps Hg _ IH]; simpl; constructor; auto.
  destruct (hasIndex i g); auto.
Qed.

Lemma act_slotted a h : slotted h -> slotted (act a h).
Proof.
  unfold slotted. destruct a as [t nav|i b|]; simpl; intros H.
  - unfold refresh.
    destruct (match t with IntervalTick => polling h | _ => listening h end);
      simpl; [apply collect_slotted | assumption].
  - now apply markBusy_slotted.
  - assumption.
Qed.

Lemma hookAfter_slotted nav0 history : slotted (hookAfter nav0 history).
Proof.
  unfold hookAfter.
  assert (Hm : slotted (mount nav0)) by apply collect_slotted.
  revert Hm. generalize (mount nav0).
  induction history as [|a history IH]; simpl; intros h Hh; [assumption|].
  apply IH. now apply act_slotted.
Qed.

Lemma available_iff g :
  available g = true <-> connected g = true /\ truthy (busy g) = false.
Proof.
  unfold available. rewrite andb_true_iff, negb_true_iff. tauto.
Qed.

(** Marking a slot busy leaves no available descriptor with that slot. *)
Lemma markBusy_true_skips i gps :
  nextAvailable (markBusy i true gps) <> Some i.
Proof.
  unfold nextAvailable.
  destruct (List.find available (markBusy i true gps)) as [g|] eqn:Hfind;
    [|discriminate].
  apply List.find_some in Hfind. destruct Hfind as [Hin Hav].
  unfold markBusy in Hin. apply List.in_map_iff in Hin.
  destruct Hin as (g0 & Hg & _).
  destruct (hasIndex i g0) eqn:Hi; subst g.
  - unfold available in Hav. simpl in Hav.
    rewrite andb_false_r in Hav. discriminate.
  - unfold hasIndex in Hi. intros Hidx. rewrite Hidx in Hi.
    rewrite Z.eqb_refl in Hi. discriminate.
Qed.

Lemma collect_sorted known gps (n : Z) :
  (forall (k : nat) gp, gps !! k = Some (Some gp) -> gp_index gp = (n + Z.of_nat k)%Z) ->
  StronglySorted slotBefore (collect known gps)
  /\ Forall (fun g => exists j, index g = Some j /\ (n <= j)%Z) (collect known gps).
Proof.
  revert n. induction gps as [|slot gps IH]; intros n Hshape; simpl.
  - split; constructor.
  - destruct (IH (n + 1)%Z) as [Hsorted Hbound].
    { intros k gp Hk. rewrite (Hshape (S k) gp Hk). lia. }
    assert (Hweak : Forall (fun g => exists j, index g = Some j /\ (n <= j)%Z)
                      (collect known gps)).
    { eapply Forall_impl; [exact Hbound|].
      intros g (j & Hj & Hle). exists j. split; [exact Hj | lia]. }
    destruct slot as [gp|]; [|now split].
    assert (Hhead : gp_index gp = n) by (rewrite (Hshape 0%nat gp eq_refl); lia).
    split.
    + constructor; [exact Hsorted|].
      eapply Forall_impl; [exact Hbound|].
      intros g (j & Hj & Hle). exists n, j. simpl. rewrite Hhead.
      repeat split; [exact Hj | lia].
    + constructor; [|exact Hweak].
      exists n. simpl. rewrite Hhead. split; [reflexivity | lia].
Qed.

Lemma markBusy_index i b g :
  index (if hasIndex i g then setBusy b g else g) = index g.
Proof. now destruct (hasIndex i g). Qed.

Lemma markBusy_sorted i b gps :
  StronglySorted slotBefore gps -> StronglySorted slotBefore (markBusy i b gps).
Proof.
  induction 1 as [|g gps _ IH Hall]; simpl; constructor; [exact IH|].
  unfold markBusy. apply Forall_forall. intros g' Hin.
  apply list_elem_of_In, List.in_map_iff in Hin. destruct Hin as (g0 & <- & Hin0).
  rewrite Forall_forall in Hall.
  destruct (Hall g0) as (a & c & Ha & Hc & Hlt); [now apply list_elem_of_In|].
  exists a, c. now rewrite !markBusy_index.
Qed.

Lemma effectClosure_sorted nav :
  apiShaped nav -> StronglySorted slotBefore (effectClosure nav).
Proof.
  intros Hshape. apply (collect_sorted initialGamepads (getGamepads nav) 0).
  intros k gp Hk. now rewrite (Hshape k gp Hk).
Qed.

Lemma act_sorted a h :
  apiShapedAction a ->
  StronglySorted slotBefore (gamepads h) -> StronglySorted slotBefore (gamepads (act a h)).
Proof.
  destruct a as [t nav|i b|]; simpl; intros Hshape Hsorted.
  - unfold refresh.
    destruct (match t with IntervalTick => polling h | _ => listening h end);
      simpl; [now apply effectClosure_sorted | exact Hsorted].
  - now apply markBusy_sorted.
  - exact Hsorted.
Qed.

Lemma hookAfter_sorted nav0 history :
  apiShaped nav0 -> Forall apiShapedAction history ->
  StronglySorted slotBefore (gamepads (hookAfter nav0 history)).
Proof.
  intros H0 Hall. unfold hookAfter.
  assert (Hm : StronglySorted slotBefore (gamepads (mount nav0)))
    by now apply effectClosure_sorted.
  revert Hm. generalize (mount nav0).
  induction Hall as [|a history Ha _ IH]; simpl; intros h Hh; [exact Hh|].
  apply IH. now apply act_sorted.
Qed.

(** In a slot-ordered list the first available descriptor has the least
    slot number among the available ones. *)
Lemma first_available_least gps s g s' :
  StronglySorted slotBefore gps ->
  nextAvailable gps = Some s ->
  In g gps -> available g = true -> index g = Some s' ->
  (s <= s')%Z.
Proof.
  intros Hsorted Hnext Hin Hav Hidx. unfold nextAvailable in Hnext.
  destruct (List.find available gps) as [g0|] eqn:Hfind; [|discriminate].
  apply find_some_split in Hfind.
  destruct Hfind as (before & after & -> & Hbefore & _).
  apply List.in_app_or in Hin. destruct Hin as [Hin | [<- | Hin]].
  - rewrite Forall_forall in Hbefore.
    rewrite (Hbefore g) in Hav by now apply list_elem_of_In. discriminate.
  - assert (s = s') by congruence. lia.
  - apply StronglySorted_app_1_r, StronglySorted_inv in Hsorted.
    destruct Hsorted as [_ Hall]. rewrite Forall_forall in Hall.
    destruct (Hall g) as (a & c & Ha & Hc & Hlt); [now apply list_elem_of_In|].
    assert (a = s) by congruence. assert (c = s') by congruence. lia.
Qed.


(** C8, as the code has it.  In every state of the registry, the
    [nextAvailable] of the render of that state returns the slot of the
    first descriptor, in the order of the published list, that is connected
    and not busy, and none exactly when no descriptor qualifies; when the
    snapshots are shaped as the Gamepad API shapes them, that slot is the
    least slot number among the connected, non-busy descriptors; the
    descriptor whose slot it returns is therefore never busy or
    disconnected; the call leaves the state, whatever it is, as it was.
    After [markBusy slot true] the function of that same render still
    answers what it answered before, and the [nextAvailable] of the next
    render does not return that slot. *)
Theorem nextAvailable_lowest_free_slot (nav0 : Navigator) (history : list Action) :
  let h := hookAfter nav0 history in
  let r := render h in
  (forall s,
      fst (nextAvailableOp r h) = Some s <->
      exists before g after,
        gamepads h = before ++ g :: after
        /\ Forall (fun g' => available g' = false) before
        /\ connected g = true /\ truthy (busy g) = false
        /\ index g = Some s)
  /\ (fst (nextAvailableOp r h) = None <->
      Forall (fun g => available g = false) (gamepads h))
  /\ (apiShaped nav0 -> Forall apiShapedAction history ->
      forall s g s',
        fst (nextAvailableOp r h) = Some s ->
        In g (gamepads h) -> available g = true -> index g = Some s' ->
        (s <= s')%Z)
  /\ (forall h0, snd (nextAvailableOp r h0) = h0)
  /\ (forall s,
        let h' := snd (markBusyOp s true h) in
        fst (nextAvailableOp r h') = fst (nextAvailableOp r h)
        /\ fst (nextAvailableOp (render h') h') <> Some s).
Proof.
  intros h r. pose proof (hookAfter_slotted nav0 history) as Hslot.
  fold h in Hslot. unfold slotted in Hslot.
  unfold nextAvailableOp, r; simpl.
  split; [intros s; split|split; [split|split; [|split]]].
  - intros Hs. unfold nextAvailable in Hs.
    destruct (List.find available (gamepads h)) as [g|] eqn:Hfind; [|discriminate].
    apply find_some_split in Hfind.
    destruct Hfind as (before & after & Heq & Hb & Hg).
    apply available_iff in Hg. destruct Hg as [Hc Hbusy].
    exists before, g, after. auto.
  - intros (before & g & after & Heq & Hb & Hc & Hbusy & Hidx).
    unfold nextAvailable.
    assert (Hfind : List.find available (gamepads h) = Some g).
    { apply find_some_split. exists before, after.
      repeat split; auto. apply available_iff. auto. }
    now rewrite Hfind.
  - intros Hnone. unfold nextAvailable in Hnone.
    destruct (List.find available (gamepads h)) as [g|] eqn:Hfind.
    + apply List.find_some in Hfind. destruct Hfind as [Hin _].
      rewrite Forall_forall in Hslot.
      destruct (Hslot g) as [i Hi].
      * now apply list_elem_of_In.
      * congruence.
    + now apply find_none_all in Hfind.
  - intros Hall. unfold nextAvailable.
    apply find_none_all in Hall. now rewrite Hall.
  - intros H0 Hall s g s'. apply first_available_least.
    now apply hookAfter_sorted.
  - reflexivity.
  - intros s. split; [reflexivity | apply markBusy_true_skips].
Qed.

Lemma nextAvailable_lowest_free_slot_witness :
  let h := hookAfter twoPads [MarkBusy 0 true] in
  let h' := snd (markBusyOp 1 true h) in
  fst (nextAvailableOp (render h) h) = Some 1%Z
  /\ (forall g s', In g (gamepads h) -> available g = true -> index g = Some s' ->
                   (1 <= s')%Z)
  /\ fst (nextAvailableOp (render h') h') <> Some 1%Z.
Proof.
  intros h h'.
  destruct (nextAvailable_lowest_free_slot twoPads [MarkBusy 0 true])
    as (_ & _ & Hleast & _ & Hskip).
  split; [reflexivity|]. split; [|apply (Hskip 1%Z)].
  intros g s'. apply Hleast; [| |reflexivity].
  - intros [|[|k]] gp Hk; simpl in Hk; try discriminate;
      injection Hk as <-; reflexivity.
  - repeat constructor.
Defined.

(** C8 as stated fails for the call that follows at once: with two free
    devices, [markBusy 0 true] makes slot 0 busy in the state, and the
    [nextAvailable] of the render in which it was called still returns
    slot 0. *)
Lemma nextAvailable_same_render_counterexample :
  let h := hookAfter twoPads [] in
  let r := render h in
  let h' := snd (markBusyOp 0 true h) in
  List.map busy (gamepads h') = [Some true; Some false]
  /\ fst (nextAvailableOp r h') = Some 0%Z
  /\ ~ (fst (nextAvailableOp r h') <> Some 0%Z).
Proof.
  intros h r h'. split; [reflexivity|]. split; [reflexivity|].
  intros Hskip. now apply Hskip.
Qed.

(** The registry scenario of the specification: two devices, slot 0
    claimed, the next available slot is 1; with slot 1 claimed too there is
    none. *)
Example registry_scenario :
  nextAvailable (gamepads (hookAfter twoPads [MarkBusy 0 true])) = Some 1%Z
  /\ nextAvailable (gamepads (hookAfter twoPads [MarkBusy 0 true; MarkBusy 1 true])) = None.
Proof. split; reflexivity. Qed.

(** What [updateGamepads] computes: one descriptor per non-null slot, in
    snapshot order, whose flag is looked up in the list its closure holds. *)
Lemma updateGamepads_descriptors known nav :
  updateGamepads known nav
  = List.map (describe known)
      (flat_map (fun slot => match slot with Some gp => [gp] | None => [] end)
         (getGamepads nav)).
Proof.
  unfold updateGamepads.
  induction (getGamepads nav) as [|[gp|] gps IH]; simpl; congruence.
Qed.

(** Had the closure held the published list, a slot marked busy there
    would stay busy in the descriptor rebuilt for it. *)
Lemma describe_carries_busy known gp b :
  priorBusy (markBusy (gp_index gp) b known) (gp_index gp)
  = match List.find (hasIndex (gp_index gp)) known with
    | Some _ => b
    | None => false
    end.
Proof.
  unfold priorBusy. induction known as [|g known IH]; simpl; [reflexivity|].
  destruct (hasIndex (gp_index gp) g) eqn:Hg; simpl.
  - unfold hasIndex in *. simpl. now rewrite Hg.
  - now rewrite Hg.
Qed.

(** The closure the effect registered holds the initial, empty list: every
    descriptor it builds has [busy = false]. *)
Lemma effectClosure_never_busy nav :
  Forall (fun g => busy g = Some false) (effectClosure nav).
Proof.
  unfold effectClosure, updateGamepads, initialGamepads.
  induction (getGamepads nav) as [|[gp|] gps IH]; simpl; auto.
Qed.

Lemma refresh_resets_busy t nav h :
  listening h = true -> polling h = true ->
  Forall (fun g => busy g = Some false) (gamepads (snd (refresh t nav h))).
Proof.
  intros Hl Hp. unfold refresh. destruct t; rewrite ?Hl, ?Hp; simpl;
    apply effectClosure_never_busy.
Qed.

(** C7. A device sits in slot 1 (slot 0 is empty) and is marked busy.  Each
    kind of refresh rebuilds the list from the snapshot and skips the empty
    slot, but the rebuilt descriptor of slot 1 has [busy = false]: the
    flag of the published list is not carried forward. *)
Theorem refresh_drops_busy_flag :
  let gp := {| gp_connected := true; gp_id := "pad"; gp_index := 1;
               gp_mapping := "standard"; gp_axes := []; gp_buttons := [];
               gp_batteryLevel := None |} in
  let nav : Navigator := Some [None; Some gp] in
  let slots h := List.map (fun g => (index g, busy g)) (gamepads h) in
  let claimed := hookAfter nav [MarkBusy 1 true] in
  slots claimed = [(Some 1%Z, Some true)]
  /\ slots (act (Refresh IntervalTick nav) claimed) = [(Some 1%Z, Some false)]
  /\ slots (act (Refresh GamepadConnected nav) claimed) = [(Some 1%Z, Some false)]
  /\ slots (act (Refresh GamepadDisconnected nav) claimed) = [(Some 1%Z, Some false)].
Proof. repeat split. Qed.

(** The manager's effect does return a cleanup: after it, no notification
    and no tick changes the list any more. *)
Lemma cleanup_stops_refresh t nav h :
  refresh t nav (snd (cleanup h)) = (tt, snd (cleanup h)).
Proof. destruct t; reflexivity. Qed.

End ManagerProperties.

(** * Properties of the input normalizer *)

Section NumberFacts.

Lemma Qgt_bool_true x y : Qgt_bool x y = true <-> (y < x)%Q.
Proof.
  unfold Qgt_bool. rewrite negb_true_iff. split.
  - intros H. apply Qnot_le_lt. intros Hle.
    apply Qle_bool_iff in Hle. congruence.
  - intros H. destruct (Qle_bool x y) eqn:Hle; [|reflexivity].
    apply Qle_bool_iff in Hle. exfalso. eapply Qlt_not_le; eassumption.
Qed.

Lemma Qgt_bool_false x y : Qgt_bool x y = false <-> (x <= y)%Q.
Proof.
  unfold Qgt_bool. rewrite negb_false_iff. apply Qle_bool_iff.
Qed.

Lemma Qeq_bool_zero_l a b :
  Qeq_bool a 0 = true -> Qeq_bool a b = Qeq_bool b 0.
Proof.
  intros Ha. apply Qeq_bool_iff in Ha.
  destruct (Qeq_bool a b) eqn:Hab, (Qeq_bool b 0) eqn:Hb; try reflexivity.
  - apply Qeq_bool_iff in Hab. apply Qeq_bool_neq in Hb.
    exfalso. apply Hb. rewrite <- Hab. exact Ha.
  - apply Qeq_bool_iff in Hb. apply Qeq_bool_neq in Hab.
    exfalso. apply Hab. rewrite Hb. exact Ha.
Qed.

End NumberFacts.

Section DeadzoneProperties.
Import Joystick.

(** C4. A raw axis value inside the deadzone ([|v| <= deadzone]) is output
    as exactly 0; outside it, the X axes (raw 0 and 2) output [v] itself
    and the Y axes (raw 1 and 3) output [-v]. *)
Theorem deadzone_filter (p : GamepadJoystickProps) (gp : Gamepad) (k : nat) (v : Q) :
  (k < 4)%nat ->
  gp_axes gp !! k = Some v ->
  ((Qabs v <= deadzone p)%Q -> axisOutput p gp k = 0%Q)
  /\ ((deadzone p < Qabs v)%Q ->
      axisOutput p gp k = if Nat.even k then v else (- v)%Q).
Proof.
  intros Hk Hv.
  assert (Hcases : (k = 0 \/ k = 1 \/ k = 2 \/ k = 3)%nat) by lia.
  split; intros Hcmp.
  - apply Qgt_bool_false in Hcmp.
    destruct Hcases as [-> | [-> | [-> | ->]]]; simpl;
      rewrite Hv; simpl; now rewrite Hcmp.
  - apply Qgt_bool_true in Hcmp.
    destruct Hcases as [-> | [-> | [-> | ->]]]; simpl;
      rewrite Hv; simpl; now rewrite Hcmp.
Qed.

Lemma deadzone_filter_witness :
  let p := defaultProps 0 in
  let gp := pad [1 # 2; 1 # 20; 0; - (3 # 4)]%Q [] in
  axisOutput p gp 3 = (- - (3 # 4))%Q /\ axisOutput p gp 1 = 0%Q.
Proof.
  intros p gp. split.
  - apply (deadzone_filter p gp 3 (- (3 # 4))%Q); [lia | reflexivity | reflexivity].
  - apply (deadzone_filter p gp 1 (1 # 20)%Q); [lia | reflexivity |].
    vm_compute. discriminate.
Defined.

(** An axis the device does not have reads as 0. *)
Lemma missing_axis_is_neutral (p : GamepadJoystickProps) (gp : Gamepad) (k : nat) :
  gp_axes gp !! k = None -> (k < 4)%nat -> axisOutput p gp k = 0%Q.
Proof.
  intros Hv Hk.
  assert (Hcases : (k = 0 \/ k = 1 \/ k = 2 \/ k = 3)%nat) by lia.
  destruct Hcases as [-> | [-> | [-> | ->]]]; simpl; now rewrite Hv.
Qed.

End DeadzoneProperties.

Section FrameStructure.
Import Joystick.

Lemma andThen_fst (f g : Step) r : fst ((f >> g) r) = fst (g (fst (f r))).
Proof.
  unfold andThen. destruct (f r) as [r1 e1]. simpl.
  now destruct (g r1) as [r2 e2].
Qed.

Lemma andThen_snd (f g : Step) r :
  snd ((f >> g) r) = snd (f r) ++ snd (g (fst (f r))).
Proof.
  unfold andThen. destruct (f r) as [r1 e1]. simpl.
  now destruct (g r1) as [r2 e2].
Qed.

(** The buttons loop writes [prevButtonsRef] only. *)
Lemma buttons_keep_axes p l i r :
  let r' := fst (forEachFrom (buttonStep p) l i r) in
  lastEmitTimeRef r' = lastEmitTimeRef r
  /\ lastNonNeutralRef r' = lastNonNeutralRef r
  /\ prevAxesRef r' = prevAxesRef r.
Proof.
  revert i r. induction l as [|btn l IH]; intros i r; simpl; [auto|].
  rewrite andThen_fst. simpl.
  destruct (IH (S i) (setButton (buttonName i) (value btn) r)) as (H1 & H2 & H3).
  simpl in *. auto.
Qed.

(** The axes loop writes the two axis cells only. *)
Lemma sideStep_keeps_buttons p e raw s r :
  prevButtonsRef (fst (sideStep p e raw s r)) = prevButtonsRef r.
Proof. reflexivity. Qed.

Lemma processFrame_events p gp now r :
  snd (processFrame p gp now r)
  = sideCalls p (shouldEmit p now r) (atLeft (axesRaw p gp)) left r
    ++ sideCalls p (shouldEmit p now r) (atRight (axesRaw p gp)) right
         (setSide left (atLeft (axesRaw p gp))
            (negb (isNeutral (atLeft (axesRaw p gp)))) r)
    ++ snd (forEach (buttonStep p) (gp_buttons gp) (afterAxes p gp r)).
Proof.
  unfold processFrame. cbv zeta. rewrite !andThen_snd. simpl.
  rewrite app_nil_r. reflexivity.
Qed.

Lemma processFrame_refs p gp now r :
  fst (processFrame p gp now r)
  = let r3 := fst (forEach (buttonStep p) (gp_buttons gp) (afterAxes p gp r)) in
    if shouldEmit p now r then setLastEmitTime now r3 else r3.
Proof.
  unfold processFrame. cbv zeta. rewrite !andThen_fst. reflexivity.
Qed.

Lemma poll_present p nav now gp r :
  gamepadAt (getGamepads nav) (id p) = Some gp ->
  poll p nav now r = processFrame p gp now r.
Proof. intros H. unfold poll. now rewrite H. Qed.

Lemma poll_absent p nav now r :
  gamepadAt (getGamepads nav) (id p) = None ->
  poll p nav now r = (r, []).
Proof. intros H. unfold poll. now rewrite H. Qed.

End FrameStructure.

Section AxisPolicy.
Import Joystick.

Lemma movesOf_app s e1 e2 : movesOf s (e1 ++ e2) = movesOf s e1 ++ movesOf s e2.
Proof. unfold movesOf. apply flat_map_app. Qed.

Lemma movesOf_buttonCalls s p v i r : movesOf s (buttonCalls p v i r) = [].
Proof.
  unfold buttonCalls.
  repeat match goal with |- context [if ?c then _ else _] => destruct c end;
    reflexivity.
Qed.

Lemma movesOf_buttons s p l i r :
  movesOf s (snd (forEachFrom (buttonStep p) l i r)) = [].
Proof.
  revert i r. induction l as [|btn l IH]; intros i r; simpl; [reflexivity|].
  rewrite andThen_snd, movesOf_app, IH. simpl.
  now rewrite movesOf_buttonCalls.
Qed.

Lemma movesOf_other_side s s' p e next r :
  s <> s' -> movesOf s (sideCalls p e next s' r) = [].
Proof.
  intros Hne. unfold sideCalls.
  destruct s, s'; try congruence;
    repeat match goal with |- context [if ?c then _ else _] => destruct c end;
    try reflexivity;
    destruct (joystickEmitMode p);
    repeat match goal with |- context [if ?c then _ else _] => destruct c end;
    reflexivity.
Qed.

Lemma movesOf_own_side s p e next r :
  joystickEmitMode p = JOYSTICK_EMIT_ON_CHANGE ->
  callbackOf p s = true ->
  movesOf s (sideCalls p e next s r)
  = if isNeutral next then
      if at_side (lastNonNeutralRef r) s then [(0, 0)%Q] else []
    else
      if changed next (at_side (prevAxesRef r) s) || e
      then [(dx next, dy next)] else [].
Proof.
  intros Hmode Hcb. unfold sideCalls. rewrite Hmode, Hcb.
  rewrite andb_true_r. simpl.
  destruct s;
    repeat match goal with |- context [if ?c then _ else _] => destruct c end;
    reflexivity.
Qed.

(** The move calls of a side in a processed frame are those of that side's
    pass through the axes loop, which reads that side's cells as the frame
    found them. *)
Lemma frame_moves s p gp now r :
  movesOf s (snd (processFrame p gp now r))
  = movesOf s (sideCalls p (shouldEmit p now r) (at_side (axesRaw p gp) s) s r).
Proof.
  rewrite processFrame_events, !movesOf_app.
  unfold forEach. rewrite movesOf_buttons, app_nil_r.
  destruct s; simpl at_side.
  - rewrite (movesOf_other_side left right) by discriminate.
    now rewrite app_nil_r.
  - rewrite (movesOf_other_side right left) by discriminate.
    reflexivity.
Qed.

Lemma changed_to_neutral next prev :
  isNeutral next = true -> changed next prev = negb (isNeutral prev).
Proof.
  unfold isNeutral, changed, Qneq_bool. rewrite andb_true_iff.
  intros [Hx Hy].
  rewrite (Qeq_bool_zero_l _ (dx prev) Hx), (Qeq_bool_zero_l _ (dy prev) Hy).
  now rewrite negb_andb.
Qed.

Lemma afterAxes_tracked p gp r : neutralTracked (afterAxes p gp r).
Proof. intros []; reflexivity. Qed.

Lemma act_tracked a r : neutralTracked r -> neutralTracked (act a r).
Proof.
  intros Hr. destruct a as [p nav now|now]; simpl; [|exact Hr].
  unfold poll. destruct (gamepadAt (getGamepads nav) (id p)) as [gp|]; [|exact Hr].
  rewrite processFrame_refs. cbv zeta.
  destruct (buttons_keep_axes p (gp_buttons gp) 0 (afterAxes p gp r))
    as (_ & Hn & Ha).
  pose proof (afterAxes_tracked p gp r) as Ht.
  intros s. specialize (Ht s).
  destruct (shouldEmit p now r); simpl; unfold forEach;
    rewrite Hn, Ha; exact Ht.
Qed.

Lemma refsAfter_tracked history : neutralTracked (refsAfter history).
Proof.
  unfold refsAfter.
  assert (H0 : neutralTracked initialRefs) by (intros []; reflexivity).
  revert H0. generalize initialRefs.
  induction history as [|a history IH]; simpl; intros r Hr; [exact Hr|].
  apply IH. now apply act_tracked.
Qed.

(** C1. Under [JOYSTICK_EMIT_ON_CHANGE], in every processed frame and for
    each side whose move callback is supplied: the callback is invoked
    exactly when the filtered pair differs from the pair remembered for that
    side, or the pair is non-neutral and the frame is rate-eligible; it is
    invoked at most once, with (0, 0) for a neutral pair and with the
    filtered pair otherwise; a neutral pair after a non-neutral one gives
    one call with (0, 0) whatever the eligibility of the frame; and a
    neutral pair after a neutral one gives no call. *)
Theorem emit_on_change_policy
    (history : list Action) (p : GamepadJoystickProps) (nav : Navigator)
    (gp : Gamepad) (now : Q) (s : Side) :
  joystickEmitMode p = JOYSTICK_EMIT_ON_CHANGE ->
  callbackOf p s = true ->
  gamepadAt (getGamepads nav) (id p) = Some gp ->
  let r := refsAfter history in
  let next := at_side (axesRaw p gp) s in
  let prev := at_side (prevAxesRef r) s in
  let eligible := shouldEmit p now r in
  let calls := movesOf s (snd (poll p nav now r)) in
  (calls <> [] <->
     changed next prev = true \/ (isNeutral next = false /\ eligible = true))
  /\ (calls = [] \/
      calls = [if isNeutral next then (0, 0)%Q else (dx next, dy next)])
  /\ (isNeutral prev = false -> isNeutral next = true -> calls = [(0, 0)%Q])
  /\ (isNeutral prev = true -> isNeutral next = true -> calls = []).
Proof.
  intros Hmode Hcb Hgp r next prev eligible calls.
  assert (Hcalls : calls
            = if isNeutral next then
                if negb (isNeutral prev) then [(0, 0)%Q] else []
              else
                if changed next prev || eligible then [(dx next, dy next)] else []).
  { unfold calls. rewrite (poll_present _ _ _ _ _ Hgp), frame_moves.
    rewrite (movesOf_own_side _ _ _ _ _ Hmode Hcb).
    pose proof (refsAfter_tracked history s) as Ht. fold r in Ht.
    now rewrite Ht. }
  clearbody calls. subst calls.
  destruct (isNeutral next) eqn:Hn.
  - rewrite (changed_to_neutral next prev Hn).
    destruct (isNeutral prev); simpl; repeat split; auto; try congruence;
      intros [H | [H _]]; congruence.
  - destruct (changed next prev), eligible; simpl; repeat split; auto;
      try congruence; intros [H | [_ H]]; congruence.
Qed.

Lemma emit_on_change_policy_witness :
  let p := defaultProps 0 in
  let held := only (pad [1 # 2; 0; 0; 0]%Q []) in
  let released := only (pad [1 # 20; 0; 0; 0]%Q []) in
  let history := [EffectRun 0; Polled p held 10] in
  movesOf left (snd (poll p released 11 (refsAfter history))) = [(0, 0)%Q].
Proof.
  intros p held released history.
  apply (emit_on_change_policy history p released
           (pad [1 # 20; 0; 0; 0]%Q []) 11%Q left);
    reflexivity.
Defined.

End AxisPolicy.

Section ButtonNames.
Import Joystick.

Lemma standard_names_distinct : NoDup STANDARD_BUTTONS.
Proof. apply (bool_decide_unpack _). vm_compute. exact I. Qed.

Lemma standard_name_not_positional name t :
  name ∈ STANDARD_BUTTONS -> name <> "Button" +:+ t.
Proof.
  intros Hin Heq. subst name. unfold STANDARD_BUTTONS in Hin.
  repeat (apply elem_of_cons in Hin; destruct Hin as [Hin | Hin];
          [simpl in Hin; discriminate Hin|]).
  now apply elem_of_nil in Hin.
Qed.

Lemma buttonName_standard i name :
  STANDARD_BUTTONS !! i = Some name -> buttonName i = name.
Proof. intros H. unfold buttonName. now rewrite H. Qed.

Lemma buttonName_positional i :
  STANDARD_BUTTONS !! i = None -> buttonName i = "Button" +:+ pretty i.
Proof. intros H. unfold buttonName. now rewrite H. Qed.

(** Distinct channels have distinct names, so the cells of
    [prevButtonsRef] are one per channel. *)
Lemma buttonName_inj i j : buttonName i = buttonName j -> i = j.
Proof.
  destruct (STANDARD_BUTTONS !! i) as [ni|] eqn:Hi,
           (STANDARD_BUTTONS !! j) as [nj|] eqn:Hj.
  - rewrite (buttonName_standard _ _ Hi), (buttonName_standard _ _ Hj).
    intros ->. eapply NoDup_lookup; eauto using standard_names_distinct.
  - rewrite (buttonName_standard _ _ Hi), (buttonName_positional _ Hj).
    intros Heq. exfalso. eapply standard_name_not_positional; [|exact Heq].
    eapply list_elem_of_lookup_2; eauto.
  - rewrite (buttonName_positional _ Hi), (buttonName_standard _ _ Hj).
    intros Heq. exfalso. eapply standard_name_not_positional; [|symmetry; exact Heq].
    eapply list_elem_of_lookup_2; eauto.
  - rewrite (buttonName_positional _ Hi), (buttonName_positional _ Hj).
    simpl. intros Heq. injection Heq as Heq. now apply (inj pretty).
Qed.

Lemma prevValueOf_setButton_same name v r :
  prevValueOf (setButton name v r) name = v.
Proof. unfold prevValueOf, setButton. simpl. now rewrite lookup_insert_eq. Qed.

Lemma prevValueOf_setButton_other name name' v r :
  name <> name' -> prevValueOf (setButton name v r) name' = prevValueOf r name'.
Proof.
  intros Hne. unfold prevValueOf, setButton. simpl.
  now rewrite lookup_insert_ne.
Qed.

End ButtonNames.

Section ButtonEvents.
Import Joystick.

Lemma buttonEventsOf_app name e1 e2 :
  buttonEventsOf name (e1 ++ e2) = buttonEventsOf name e1 ++ buttonEventsOf name e2.
Proof. unfold buttonEventsOf. apply List.filter_app. Qed.

Lemma binaryOf_app name e1 e2 :
  binaryOf name (e1 ++ e2) = binaryOf name e1 ++ binaryOf name e2.
Proof. unfold binaryOf. apply flat_map_app. Qed.

Lemma analogOf_app name e1 e2 :
  analogOf name (e1 ++ e2) = analogOf name e1 ++ analogOf name e2.
Proof. unfold analogOf. apply flat_map_app. Qed.

Lemma binaryOf_buttonEventsOf name evs :
  binaryOf name (buttonEventsOf name evs) = binaryOf name evs.
Proof.
  induction evs as [|[s x y|n b|n v] evs IH]; simpl; auto.
  - destruct (String.eqb n name) eqn:Hn; simpl; rewrite ?Hn, IH; reflexivity.
  - destruct (String.eqb n name) eqn:Hn; simpl; rewrite ?Hn, IH; reflexivity.
Qed.

Lemma analogOf_buttonEventsOf name evs :
  analogOf name (buttonEventsOf name evs) = analogOf name evs.
Proof.
  induction evs as [|[s x y|n b|n v] evs IH]; simpl; auto.
  - destruct (String.eqb n name) eqn:Hn; simpl; rewrite ?Hn, IH; reflexivity.
  - destruct (String.eqb n name) eqn:Hn; simpl; rewrite ?Hn, IH; reflexivity.
Qed.

Lemma buttonEventsOf_sideCalls name p e next s r :
  buttonEventsOf name (sideCalls p e next s r) = [].
Proof.
  unfold sideCalls. destruct (joystickEmitMode p);
    repeat match goal with |- context [if ?c then _ else _] => destruct c end;
    reflexivity.
Qed.

Lemma buttonEventsOf_own p v i r :
  buttonEventsOf (buttonName i) (buttonCalls p v i r) = buttonCalls p v i r.
Proof.
  unfold buttonCalls.
  repeat match goal with |- context [if ?c then _ else _] => destruct c end;
    simpl; rewrite ?String.eqb_refl; reflexivity.
Qed.

Lemma buttonEventsOf_foreign name p v j r :
  buttonName j <> name -> buttonEventsOf name (buttonCalls p v j r) = [].
Proof.
  intros Hne. apply String.eqb_neq in Hne. unfold buttonCalls.
  repeat match goal with |- context [if ?c then _ else _] => destruct c end;
    simpl; rewrite ?Hne; reflexivity.
Qed.

(** The calls for a button depend on the refs through that button's cell. *)
Lemma buttonCalls_ext p v i r r' :
  prevValueOf r (buttonName i) = prevValueOf r' (buttonName i) ->
  buttonCalls p v i r = buttonCalls p v i r'.
Proof. intros H. unfold buttonCalls. now rewrite H. Qed.

(** The calls of the buttons loop that carry the name of channel [i] are
    those of the one pass for that channel, which compares against the
    value the frame found in the cell. *)
Lemma loop_events_of_channel p i l i0 r :
  buttonEventsOf (buttonName i) (snd (forEachFrom (buttonStep p) l i0 r))
  = match l !! (i - i0)%nat with
    | Some btn => if (i0 <=? i)%nat then buttonCalls p (value btn) i r else []
    | None => []
    end.
Proof.
  revert i0 r. induction l as [|btn l IH]; intros i0 r; [reflexivity|].
  cbn [forEachFrom].
  rewrite andThen_snd, buttonEventsOf_app, IH. cbn [buttonStep fst snd].
  destruct (Nat.compare_spec i0 i) as [Heq | Hlt | Hgt].
  - subst i0. rewrite buttonEventsOf_own, Nat.sub_diag.
    change ((btn :: l) !! 0%nat) with (Some btn).
    rewrite Nat.leb_refl.
    replace (S i <=? i)%nat with false by (symmetry; apply Nat.leb_gt; lia).
    destruct (l !! (i - S i)%nat); now rewrite app_nil_r.
  - rewrite buttonEventsOf_foreign
      by (intros Heq; apply buttonName_inj in Heq; lia).
    replace (i - i0)%nat with (S (i - S i0)) by lia.
    change ((btn :: l) !! S (i - S i0)) with (l !! (i - S i0)%nat).
    replace (S i0 <=? i)%nat with true by (symmetry; apply Nat.leb_le; lia).
    replace (i0 <=? i)%nat with true by (symmetry; apply Nat.leb_le; lia).
    destruct (l !! (i - S i0)%nat) as [b|]; [|reflexivity].
    apply buttonCalls_ext. apply prevValueOf_setButton_other.
    intros Heq. apply buttonName_inj in Heq. lia.
  - rewrite buttonEventsOf_foreign
      by (intros Heq; apply buttonName_inj in Heq; lia).
    replace (S i0 <=? i)%nat with false by (symmetry; apply Nat.leb_gt; lia).
    replace (i0 <=? i)%nat with false by (symmetry; apply Nat.leb_gt; lia).
    destruct (l !! (i - S i0)%nat), ((btn :: l) !! (i - i0)%nat); reflexivity.
Qed.

Lemma frame_events_of_channel p gp now r i :
  buttonEventsOf (buttonName i) (snd (processFrame p gp now r))
  = match gp_buttons gp !! i with
    | Some btn => buttonCalls p (value btn) i r
    | None => []
    end.
Proof.
  rewrite processFrame_events, !buttonEventsOf_app, !buttonEventsOf_sideCalls.
  simpl. unfold forEach. rewrite loop_events_of_channel.
  rewrite Nat.sub_0_r. simpl.
  destruct (gp_buttons gp !! i); [|reflexivity].
  now apply buttonCalls_ext.
Qed.

End ButtonEvents.

Section BinaryEdges.
Import Joystick.

Lemma chain_app a l1 b l2 c :
  chain a l1 b -> chain b l2 c -> chain a (l1 ++ l2) c.
Proof.
  intros H1 H2. induction H1 as [b|b l b' _ IH]; simpl; [exact H2|].
  constructor. now apply IH.
Qed.

Lemma chain_alternating a l b : chain a l b -> alternating l.
Proof.
  intros H. induction H as [b|b l b' Hl IH]; intros k x y Hx Hy.
  - discriminate.
  - destruct k as [|k]; simpl in *.
    + injection Hx as <-. inversion Hl; subst; simpl in Hy; congruence.
    + eapply IH; eassumption.
Qed.

Lemma binaryOf_none name evs : buttonEventsOf name evs = [] -> binaryOf name evs = [].
Proof. intros H. now rewrite <- binaryOf_buttonEventsOf, H. Qed.

Lemma wasPressed_ext p r r' name :
  prevButtonsRef r = prevButtonsRef r' -> wasPressed p r name = wasPressed p r' name.
Proof. intros H. unfold wasPressed, prevValueOf. now rewrite H. Qed.

Lemma binaryOf_edge name (c b : bool) :
  binaryOf name (if c then [ButtonBinary name b] else []) = if c then [b] else [].
Proof. destruct c; simpl; rewrite ?String.eqb_refl; reflexivity. Qed.

Lemma binaryOf_analog name (c : bool) v :
  binaryOf name (if c then [ButtonAnalog name v] else []) = [].
Proof. now destruct c. Qed.

(** The edge calls of one pass of the buttons loop, for the channel the
    pass is for. *)
Lemma binaryOf_buttonCalls p v i r :
  onButtonBinary p = true ->
  binaryOf (buttonName i) (buttonCalls p v i r)
  = match wasPressed p r (buttonName i), Qgt_bool v (triggerThreshold p) with
    | false, true => [true]
    | true, false => [false]
    | _, _ => []
    end.
Proof.
  intros Hcb. unfold buttonCalls, wasPressed.
  rewrite Hcb, !andb_true_r, !binaryOf_app, !binaryOf_edge, binaryOf_analog.
  destruct (Qgt_bool (prevValueOf r (buttonName i)) (triggerThreshold p)),
           (Qgt_bool v (triggerThreshold p)); reflexivity.
Qed.

Lemma step_chain p name v j r :
  onButtonBinary p = true ->
  chain (wasPressed p r name)
        (binaryOf name (buttonCalls p v j r))
        (wasPressed p (setButton (buttonName j) v r) name).
Proof.
  intros Hcb. destruct (String.eqb_spec (buttonName j) name) as [<- | Hne].
  - rewrite (binaryOf_buttonCalls _ _ _ _ Hcb).
    replace (wasPressed p (setButton (buttonName j) v r) (buttonName j))
      with (Qgt_bool v (triggerThreshold p))
      by (unfold wasPressed; now rewrite prevValueOf_setButton_same).
    destruct (wasPressed p r (buttonName j)), (Qgt_bool v (triggerThreshold p));
      repeat constructor.
  - rewrite binaryOf_none by now apply buttonEventsOf_foreign.
    unfold wasPressed. rewrite prevValueOf_setButton_other by assumption.
    constructor.
Qed.

Lemma loop_chain p name l i0 r :
  onButtonBinary p = true ->
  chain (wasPressed p r name)
        (binaryOf name (snd (forEachFrom (buttonStep p) l i0 r)))
        (wasPressed p (fst (forEachFrom (buttonStep p) l i0 r)) name).
Proof.
  intros Hcb. revert i0 r.
  induction l as [|btn l IH]; intros i0 r; [constructor|].
  cbn [forEachFrom]. rewrite andThen_snd, andThen_fst, binaryOf_app.
  cbn [buttonStep fst snd].
  eapply chain_app; [now apply step_chain | apply IH].
Qed.

Lemma poll_chain p name nav now r :
  onButtonBinary p = true ->
  chain (wasPressed p r name)
        (binaryOf name (snd (poll p nav now r)))
        (wasPressed p (fst (poll p nav now r)) name).
Proof.
  intros Hcb. unfold poll.
  destruct (gamepadAt (getGamepads nav) (id p)) as [gp|]; [|constructor].
  rewrite processFrame_events, processFrame_refs, !binaryOf_app.
  rewrite !binaryOf_none by apply buttonEventsOf_sideCalls. simpl app.
  cbv zeta.
  replace (wasPressed p r name) with (wasPressed p (afterAxes p gp r) name)
    by (now apply wasPressed_ext).
  match goal with
  | |- chain _ _ (wasPressed p (if ?c then setLastEmitTime now ?r3 else ?r3) name) =>
      replace (wasPressed p (if c then setLastEmitTime now r3 else r3) name)
        with (wasPressed p r3 name) by (destruct c; now apply wasPressed_ext)
  end.
  now apply loop_chain.
Qed.

Lemma pollAll_chain p name frames r :
  onButtonBinary p = true ->
  chain (wasPressed p r name)
        (binaryOf name (snd (pollAll p frames r)))
        (wasPressed p (fst (pollAll p frames r)) name).
Proof.
  intros Hcb. revert r.
  induction frames as [|[nav now] frames IH]; intros r; [constructor|].
  cbn [pollAll]. rewrite andThen_snd, andThen_fst, binaryOf_app.
  eapply chain_app; [now apply poll_chain | apply IH].
Qed.

(** C2. With the binary callback supplied, in every processed frame and for
    every button channel [i] of the device: "pressed" is the strict
    comparison of the raw value with [triggerThreshold], "was pressed" the
    same comparison of the remembered value; the call (name, true) is made
    iff the channel was not pressed and now is, the call (name, false) iff
    it was pressed and now is not; at most one of them is made in the
    frame; and over any sequence of frames, from any remembered values,
    consecutive edge calls of a channel carry alternating booleans. *)
Theorem binary_edges
    (p : GamepadJoystickProps) (nav : Navigator) (gp : Gamepad) (now : Q)
    (r : Refs) (i : nat) (btn : GamepadButton) :
  onButtonBinary p = true ->
  gamepadAt (getGamepads nav) (id p) = Some gp ->
  gp_buttons gp !! i = Some btn ->
  let name := buttonName i in
  let pressed := Qgt_bool (value btn) (triggerThreshold p) in
  let was := Qgt_bool (prevValueOf r name) (triggerThreshold p) in
  let edges := binaryOf name (snd (poll p nav now r)) in
  (pressed = true <-> (triggerThreshold p < value btn)%Q)
  /\ (was = true <-> (triggerThreshold p < prevValueOf r name)%Q)
  /\ (In true edges <-> was = false /\ pressed = true)
  /\ (In false edges <-> was = true /\ pressed = false)
  /\ (length edges <= 1)%nat
  /\ (forall frames r0 channel,
        alternating (binaryOf channel (snd (pollAll p frames r0)))).
Proof.
  intros Hcb Hgp Hbtn name pressed was edges.
  assert (Hedges : edges = match was, pressed with
                           | false, true => [true]
                           | true, false => [false]
                           | _, _ => []
                           end).
  { unfold edges. rewrite (poll_present _ _ _ _ _ Hgp).
    rewrite <- binaryOf_buttonEventsOf. unfold name.
    rewrite frame_events_of_channel, Hbtn.
    now rewrite (binaryOf_buttonCalls _ _ _ _ Hcb). }
  clearbody edges. subst edges.
  split; [apply Qgt_bool_true|].
  split; [apply Qgt_bool_true|].
  split; [|split; [|split]].
  - destruct was, pressed; simpl; intuition congruence.
  - destruct was, pressed; simpl; intuition congruence.
  - destruct was, pressed; simpl; lia.
  - intros frames r0 channel.
    eapply chain_alternating. now apply pollAll_chain.
Qed.

Lemma binary_edges_witness :
  let p := defaultProps 0 in
  In true (binaryOf "Face2" (snd (poll p (only (pad [] [0; 1]%Q)) 16 initialRefs))).
Proof.
  intros p.
  apply (binary_edges p (only (pad [] [0; 1]%Q)) (pad [] [0; 1]%Q) 16%Q
           initialRefs 1 {| value := 1 |});
    try reflexivity.
  split; reflexivity.
Defined.

End BinaryEdges.

Section AnalogChanges.
Import Joystick.

Lemma analogOf_edge name (c b : bool) :
  analogOf name (if c then [ButtonBinary name b] else []) = [].
Proof. now destruct c. Qed.

Lemma analogOf_analog name (c : bool) v :
  analogOf name (if c then [ButtonAnalog name v] else []) = if c then [v] else [].
Proof. destruct c; simpl; rewrite ?String.eqb_refl; reflexivity. Qed.

Lemma analogOf_buttonCalls p v i r :
  onButtonAnalog p = true ->
  analogOf (buttonName i) (buttonCalls p v i r)
  = if isTrigger i
       && Qgt_bool (Qabs (v - prevValueOf r (buttonName i))) (triggerEpsilon p)
    then [v] else [].
Proof.
  intros Hcb. unfold buttonCalls.
  now rewrite Hcb, !andb_true_r, !analogOf_app, !analogOf_edge, analogOf_analog.
Qed.

Lemma isTrigger_iff i : isTrigger i = true <-> i = 6%nat \/ i = 7%nat.
Proof.
  unfold isTrigger. rewrite orb_true_iff, !Nat.eqb_eq. tauto.
Qed.

(** C3. With the analog callback supplied, in every processed frame and for
    every button channel [i] of the device, the analog call is made iff
    [i] is 6 or 7 and the raw value differs from the remembered one by
    more than [triggerEpsilon]; it is made at most once and carries the raw
    value; no other channel ever gets one.  An analog call and an edge call
    can come in the same frame for the same channel.  In the scenario
    0.0, 0.05, 0.15, 0.3, 0.0 with epsilon 0.01 the step to 0.05 meets the
    condition and is reported, as are the three steps after it. *)
Theorem analog_changes
    (p : GamepadJoystickProps) (nav : Navigator) (gp : Gamepad) (now : Q)
    (r : Refs) (i : nat) (btn : GamepadButton) :
  onButtonAnalog p = true ->
  gamepadAt (getGamepads nav) (id p) = Some gp ->
  gp_buttons gp !! i = Some btn ->
  let name := buttonName i in
  let prevValue := prevValueOf r name in
  let calls := analogOf name (snd (poll p nav now r)) in
  (calls <> [] <->
     (i = 6%nat \/ i = 7%nat)
     /\ (triggerEpsilon p < Qabs (value btn - prevValue))%Q)
  /\ (calls = [] \/ calls = [value btn])
  /\ (let evs := snd (poll (defaultProps 0) (only (leftTriggerAt 1)) 16 initialRefs) in
      binaryOf "LeftTrigger" evs = [true] /\ analogOf "LeftTrigger" evs = [1%Q])
  /\ (let evs := snd (pollAll (defaultProps 0) triggerScenario initialRefs) in
      analogOf "LeftTrigger" evs = [5 # 100; 15 # 100; 3 # 10; 0]%Q
      /\ binaryOf "LeftTrigger" evs = [true; false]).
Proof.
  intros Hcb Hgp Hbtn name prevValue calls.
  assert (Hcalls : calls
            = if isTrigger i && Qgt_bool (Qabs (value btn - prevValue)) (triggerEpsilon p)
              then [value btn] else []).
  { unfold calls. rewrite (poll_present _ _ _ _ _ Hgp).
    rewrite <- analogOf_buttonEventsOf. unfold name.
    rewrite frame_events_of_channel, Hbtn.
    now rewrite (analogOf_buttonCalls _ _ _ _ Hcb). }
  clearbody calls. subst calls.
  split; [|split; [|split]].
  - rewrite <- isTrigger_iff, <- Qgt_bool_true.
    destruct (isTrigger i), (Qgt_bool (Qabs (value btn - prevValue)) (triggerEpsilon p));
      simpl; intuition congruence.
  - destruct (isTrigger i && Qgt_bool (Qabs (value btn - prevValue)) (triggerEpsilon p));
      auto.
  - split; vm_compute; reflexivity.
  - split; vm_compute; reflexivity.
Qed.

Lemma analog_changes_witness :
  let p := defaultProps 0 in
  let r := fst (poll p (only (leftTriggerAt 0)) 16 initialRefs) in
  analogOf "LeftTrigger" (snd (poll p (only (leftTriggerAt (5 # 100))) 33 r)) <> [].
Proof.
  intros p r.
  apply (analog_changes p (only (leftTriggerAt (5 # 100))) (leftTriggerAt (5 # 100))
           33%Q r 6 {| value := 5 # 100 |});
    try reflexivity.
  split; [now left | vm_compute; reflexivity].
Defined.

End AnalogChanges.

Section AxisScenario.
Import Joystick.

(** After a processed frame both cells of a side hold what the frame
    computed for it. *)
Lemma frame_cells p gp now r s :
  at_side (prevAxesRef (fst (processFrame p gp now r))) s = at_side (axesRaw p gp) s
  /\ at_side (lastNonNeutralRef (fst (processFrame p gp now r))) s
     = negb (isNeutral (at_side (axesRaw p gp) s)).
Proof.
  rewrite processFrame_refs. cbv zeta.
  destruct (buttons_keep_axes p (gp_buttons gp) 0 (afterAxes p gp r))
    as (_ & Hn & Ha).
  unfold forEach.
  destruct (shouldEmit p now r); simpl; rewrite Hn, Ha; destruct s; split; reflexivity.
Qed.

Lemma frame_moves_on_change p gp now r s :
  joystickEmitMode p = JOYSTICK_EMIT_ON_CHANGE ->
  callbackOf p s = true ->
  let next := at_side (axesRaw p gp) s in
  movesOf s (snd (processFrame p gp now r))
  = if isNeutral next then
      if at_side (lastNonNeutralRef r) s then [(0, 0)%Q] else []
    else
      if changed next (at_side (prevAxesRef r) s) || shouldEmit p now r
      then [(dx next, dy next)] else [].
Proof.
  intros Hmode Hcb next. rewrite frame_moves.
  now apply movesOf_own_side.
Qed.

(** Under [JOYSTICK_EMIT_ALWAYS] a side is reported on the rate-eligible
    frames and on those only, changed or not. *)
Lemma frame_moves_always p gp now r s :
  joystickEmitMode p = JOYSTICK_EMIT_ALWAYS ->
  callbackOf p s = true ->
  let next := at_side (axesRaw p gp) s in
  movesOf s (snd (processFrame p gp now r))
  = if shouldEmit p now r then [(dx next, dy next)] else [].
Proof.
  intros Hmode Hcb next. rewrite frame_moves. unfold sideCalls.
  rewrite Hmode, Hcb. simpl.
  destruct (shouldEmit p now r), s; reflexivity.
Qed.

(** C9, as the code has it.  Under [JOYSTICK_EMIT_ON_CHANGE] with deadzone
    0.1, on a freshly mounted instance and whatever the frame times and
    the rate: the raw left X sequence 0.0, 0.5, 0.05, 0.0 (Y at rest) makes
    the left-move callback see the dx sequence 0.5, 0.  The reading 0.05 is
    clamped to 0 and reported once as the release; the neutral readings
    before the push and after the release are not reported. *)
Theorem left_axis_scenario (p : GamepadJoystickProps) (t0 t1 t2 t3 t4 : Q) :
  joystickEmitMode p = JOYSTICK_EMIT_ON_CHANGE ->
  onLeftJoystickMove p = true ->
  id p = 0%Z ->
  deadzone p = (1 # 10)%Q ->
  let evs := snd (pollAll p (axisScenario t1 t2 t3 t4) (refs (mount p t0))) in
  movesOf left evs = [(1 # 2, 0); (0, 0)]%Q
  /\ List.map fst (movesOf left evs) = [1 # 2; 0]%Q.
Proof.
  intros Hmode Hcb Hid Hdz evs.
  assert (Hmoves : movesOf left evs = [(1 # 2, 0); (0, 0)]%Q);
    [|now rewrite Hmoves].
  unfold evs, axisScenario. cbn [pollAll].
  assert (Hat : forall x, gamepadAt (getGamepads (only (leftStickAt x))) (id p)
                          = Some (leftStickAt x))
    by (intros x; now rewrite Hid).
  assert (Hraw : forall x,
             at_side (axesRaw p (leftStickAt x)) left
             = {| dx := filterX (1 # 10) (Some x); dy := filterY (1 # 10) (Some 0%Q) |})
    by (intros x; simpl; now rewrite Hdz).
  rewrite !andThen_snd, ?andThen_fst, !movesOf_app.
  rewrite !(poll_present _ _ _ _ _ (Hat _)).
  rewrite !(frame_moves_on_change _ _ _ _ left Hmode Hcb).
  cbv zeta.
  repeat match goal with
         | |- context [at_side (lastNonNeutralRef (fst (processFrame ?p ?gp ?t ?r))) left] =>
             rewrite (proj2 (frame_cells p gp t r left))
         | |- context [at_side (prevAxesRef (fst (processFrame ?p ?gp ?t ?r))) left] =>
             rewrite (proj1 (frame_cells p gp t r left))
         end.
  rewrite !Hraw. reflexivity.
Qed.

Lemma left_axis_scenario_witness :
  List.map fst
    (movesOf left
       (snd (pollAll (defaultProps 0) (axisScenario 16 33 50 66)
               (refs (mount (defaultProps 0) 0)))))
  = [1 # 2; 0]%Q.
Proof.
  apply (left_axis_scenario (defaultProps 0) 0 16 33 50 66); reflexivity.
Defined.

(** C9 as stated fails: with the default props and frames at 60 Hz the
    left-move callback sees two values, not the three of 0.5, 0, 0. *)
Lemma left_axis_scenario_counterexample :
  let evs := snd (pollAll (defaultProps 0) (axisScenario 16 33 50 66)
                    (refs (mount (defaultProps 0) 0))) in
  let dxs := List.map fst (movesOf left evs) in
  dxs = [1 # 2; 0]%Q /\ ~ Forall2 Qeq dxs [1 # 2; 0; 0]%Q.
Proof.
  intros evs dxs.
  assert (Hdxs : dxs = [1 # 2; 0]%Q) by (vm_compute; reflexivity).
  split; [exact Hdxs|]. rewrite Hdxs. intros H.
  inversion H as [|? ? ? ? _ H1]; subst.
  inversion H1 as [|? ? ? ? _ H2]; subst.
  inversion H2.
Qed.

End AxisScenario.

Section FirstFrame.
Import Joystick.

Lemma exceeds_epsilon_from_zero (eps v : Q) :
  (eps < v)%Q -> (eps < Qabs (v - 0))%Q.
Proof.
  intros H. apply Qlt_le_trans with v; [exact H|].
  apply Qle_trans with (v - 0)%Q; [|apply Qle_Qabs].
  assert (Heq : (v - 0 == v)%Q) by ring.
  rewrite Heq. apply Qle_refl.
Qed.

(** C10, as the code has it.  On the first processed frame of a freshly
    mounted instance every channel's remembered value reads as 0.  So,
    when [triggerThreshold] is not negative, a channel whose raw value
    already exceeds it gets the call (name, true) at once; and channel 6 or
    7 gets an analog call at once when its raw value exceeds
    [triggerEpsilon].  No earlier release or zero reading is needed. *)
Theorem first_frame_defaults
    (p : GamepadJoystickProps) (nav : Navigator) (gp : Gamepad) (t0 now : Q)
    (i : nat) (btn : GamepadButton) :
  gamepadAt (getGamepads nav) (id p) = Some gp ->
  gp_buttons gp !! i = Some btn ->
  let r := refs (mount p t0) in
  let name := buttonName i in
  let evs := snd (poll p nav now r) in
  prevValueOf r name = 0%Q
  /\ (onButtonBinary p = true ->
      (0 <= triggerThreshold p)%Q ->
      (triggerThreshold p < value btn)%Q ->
      binaryOf name evs = [true])
  /\ (onButtonAnalog p = true ->
      i = 6%nat \/ i = 7%nat ->
      (triggerEpsilon p < value btn)%Q ->
      analogOf name evs = [value btn]).
Proof.
  intros Hgp Hbtn r name evs.
  assert (Hprev : prevValueOf r name = 0%Q) by reflexivity.
  split; [exact Hprev|]. split.
  - intros Hcb Hthr Hv. unfold evs.
    rewrite (poll_present _ _ _ _ _ Hgp), <- binaryOf_buttonEventsOf.
    unfold name. rewrite frame_events_of_channel, Hbtn.
    rewrite (binaryOf_buttonCalls _ _ _ _ Hcb).
    unfold wasPressed. fold name. rewrite Hprev.
    apply Qgt_bool_false in Hthr. apply Qgt_bool_true in Hv.
    now rewrite Hthr, Hv.
  - intros Hcb Hi Hv. unfold evs.
    rewrite (poll_present _ _ _ _ _ Hgp), <- analogOf_buttonEventsOf.
    unfold name. rewrite frame_events_of_channel, Hbtn.
    rewrite (analogOf_buttonCalls _ _ _ _ Hcb).
    fold name. rewrite Hprev.
    apply isTrigger_iff in Hi. apply exceeds_epsilon_from_zero in Hv.
    apply Qgt_bool_true in Hv. now rewrite Hi, Hv.
Qed.

Lemma first_frame_defaults_witness :
  let p := defaultProps 0 in
  let evs := snd (poll p (only (leftTriggerAt 1)) 16 (refs (mount p 0))) in
  binaryOf "LeftTrigger" evs = [true] /\ analogOf "LeftTrigger" evs = [1%Q].
Proof.
  intros p evs.
  destruct (first_frame_defaults p (only (leftTriggerAt 1)) (leftTriggerAt 1)
              0 16 6 {| value := 1 |} eq_refl eq_refl) as (_ & Hb & Ha).
  split.
  - apply Hb; [reflexivity | vm_compute; discriminate | reflexivity].
  - apply Ha; [reflexivity | now left | reflexivity].
Defined.

(** C10 as stated fails for a negative threshold: the remembered value 0
    then already counts as pressed, and a raw value above the threshold
    makes no edge call on the first frame. *)
Lemma first_frame_negative_threshold_counterexample :
  let p := withThreshold (- (1 # 2)) (defaultProps 0) in
  let gp := pad [] [1 # 2]%Q in
  let evs := snd (poll p (only gp) 16 (refs (mount p 0))) in
  (triggerThreshold p < 1 # 2)%Q
  /\ gp_buttons gp !! 0%nat = Some {| value := 1 # 2 |}
  /\ binaryOf (buttonName 0) evs = []
  /\ ~ In (ButtonBinary (buttonName 0) true) evs.
Proof.
  intros p gp evs. repeat split.
  intros Hin. vm_compute in Hin. exact Hin.
Qed.

End FirstFrame.

Section Lifecycle.
Import Joystick.

Lemma teardown_is_identity h : teardown h = h.
Proof. reflexivity. Qed.

Lemma runQueued_requeues q nav clock k r :
  snd (runQueued q nav clock k r) = q.
Proof.
  revert k r. induction q as [|p q IH]; intros k r; simpl; [reflexivity|].
  destruct (poll p nav (clock k) r) as [r1 e1].
  specialize (IH (S k) r1).
  destruct (runQueued q nav clock (S k) r1) as [[r2 e2] requeued].
  simpl in *. now rewrite IH.
Qed.

(** Every queued [poll] asks for the next frame again. *)
Lemma animationFrame_requeues nav clock h :
  rafQueue (fst (animationFrame nav clock h)) = rafQueue h.
Proof.
  unfold animationFrame.
  pose proof (runQueued_requeues (rafQueue h) nav clock 0 (refs h)) as H.
  destruct (runQueued (rafQueue h) nav clock 0 (refs h)) as [[r evs] requeued].
  exact H.
Qed.

(** A reconfiguration adds a loop and removes none. *)
Lemma reconfigure_adds_loop p now h :
  rafQueue (reconfigure p now h) = rafQueue h ++ [p].
Proof. reflexivity. Qed.

(** The calls of an animation frame begin with those of the closure that
    heads the queue, polling the refs as the frame finds them. *)
Lemma animationFrame_head nav clock h first rest :
  rafQueue h = first :: rest ->
  exists later,
    snd (animationFrame nav clock h)
    = snd (poll first nav (clock 0%nat) (refs h)) ++ later.
Proof.
  intros Hq. unfold animationFrame. rewrite Hq. cbn [runQueued].
  destruct (poll first nav (clock 0%nat) (refs h)) as [r1 e1].
  destruct (runQueued rest nav clock 1 r1) as [[r2 e2] requeued].
  now exists e2.
Qed.

(** C5, as the code has it.  When a dependency changes, the effect runs
    again on the same refs: it sets the last-emit timestamp to the current
    time and leaves the remembered axis pairs, the non-neutral flags and
    the remembered button values as they were.  So the next animation frame
    does not start from an initial slate: its calls begin with those of
    the first poll, and that poll compares every channel and every side
    against the values remembered before the reconfiguration, the new
    timestamp entering through the rate gate only. *)
Theorem reconfigure_keeps_previous_state
    (p : GamepadJoystickProps) (now : Q) (h : Hook) :
  let h' := reconfigure p now h in
  lastEmitTimeRef (refs h') = now
  /\ prevAxesRef (refs h') = prevAxesRef (refs h)
  /\ lastNonNeutralRef (refs h') = lastNonNeutralRef (refs h)
  /\ prevButtonsRef (refs h') = prevButtonsRef (refs h)
  /\ (forall nav clock first rest,
        rafQueue h' = first :: rest ->
        (exists later,
            snd (animationFrame nav clock h')
            = snd (poll first nav (clock 0%nat) (refs h')) ++ later)
        /\ (forall gp,
              gamepadAt (getGamepads nav) (id first) = Some gp ->
              (forall i,
                  buttonEventsOf (buttonName i)
                    (snd (poll first nav (clock 0%nat) (refs h')))
                  = match gp_buttons gp !! i with
                    | Some btn => buttonCalls first (value btn) i (refs h)
                    | None => []
                    end)
              /\ (forall s,
                    movesOf s (snd (poll first nav (clock 0%nat) (refs h')))
                    = movesOf s
                        (sideCalls first (shouldEmit first (clock 0%nat) (refs h'))
                           (at_side (axesRaw first gp) s) s (refs h))))).
Proof.
  intros h'. split; [reflexivity|]. split; [reflexivity|].
  split; [reflexivity|]. split; [reflexivity|].
  intros nav clock first rest Hq.
  split; [exact (animationFrame_head nav clock h' first rest Hq)|].
  intros gp Hgp. rewrite (poll_present _ _ _ _ _ Hgp). split.
  - intros i. rewrite frame_events_of_channel.
    destruct (gp_buttons gp !! i); [|reflexivity].
    now apply buttonCalls_ext.
  - intros s. rewrite frame_moves. reflexivity.
Qed.

Lemma reconfigure_keeps_previous_state_witness :
  let p := defaultProps 0 in
  let p' := withThreshold (2 # 10) p in
  let nav := only (pad [1 # 2; 0; 0; 0]%Q [1%Q]) in
  let h := fst (animationFrame nav (fun _ => 40%Q) (mount p 0)) in
  let h' := reconfigure p' 50 h in
  buttonEventsOf "Face1" (snd (poll p nav 60 (refs h'))) = []
  /\ movesOf left (snd (poll p nav 60 (refs h'))) = [].
Proof.
  intros p p' nav h h'.
  destruct (reconfigure_keeps_previous_state p' 50 h) as (_ & _ & _ & _ & Hframe).
  destruct (Hframe nav (fun _ => 60%Q) p [p'] eq_refl) as [_ Hfirst].
  destruct (Hfirst (pad [1 # 2; 0; 0; 0]%Q [1%Q]) eq_refl) as [Hbuttons Hmoves].
  split.
  - exact (Hbuttons 0%nat).
  - exact (Hmoves left).
Defined.

(** C5 as stated fails: a pad held with the stick pushed and Face1 down is
    polled once, then the threshold is reconfigured.  The remembered values
    are still there, and the animation frame that follows calls nothing,
    where the first frame of a new instance reports the push and the
    press. *)
Lemma reconfigure_counterexample :
  let p := defaultProps 0 in
  let p' := withThreshold (2 # 10) p in
  let nav := only (pad [1 # 2; 0; 0; 0]%Q [1%Q]) in
  let h := fst (animationFrame nav (fun _ => 40%Q) (mount p 0)) in
  let h' := reconfigure p' 50 h in
  prevButtonsRef (refs h') !! "Face1" = Some 1%Q
  /\ at_side (prevAxesRef (refs h')) left = {| dx := 1 # 2; dy := 0 |}
  /\ at_side (lastNonNeutralRef (refs h')) left = true
  /\ snd (animationFrame nav (fun _ => 60%Q) h') = []
  /\ snd (animationFrame nav (fun _ => 60%Q) (mount p' 50))
     = [JoystickMove left (1 # 2) 0; ButtonBinary "Face1" true].
Proof. repeat split. Qed.

(** C6.  The instance is mounted and unmounted; nothing was registered to
    stop the loop, so the next animation frame still runs its [poll],
    which still calls the callbacks and queues itself again.  After a
    reconfiguration the old loop and the new one both run. *)
Theorem teardown_keeps_polling :
  let p := defaultProps 0 in
  let p' := withThreshold (2 # 10) p in
  let nav := only (pad [] [1%Q]) in
  let gone := unmount (mount p 0) in
  let changed := reconfigure p' 10 (mount p 0) in
  rafQueue gone = [p]
  /\ snd (animationFrame nav (fun _ => 16%Q) gone) = [ButtonBinary "Face1" true]
  /\ rafQueue (fst (animationFrame nav (fun _ => 16%Q) gone)) = [p]
  /\ rafQueue changed = [p; p']
  /\ rafQueue (fst (animationFrame nav (fun _ => 16%Q) changed)) = [p; p'].
Proof. repeat split. Qed.

(** In general no sequence of teardowns and frames ever empties the queue. *)
Lemma loops_never_stop nav clock h :
  rafQueue (fst (animationFrame nav clock (teardown h))) = rafQueue h.
Proof. now rewrite animationFrame_requeues. Qed.

End Lifecycle.

(** * Further properties of the device registry *)

Section RegistryOperations.
Import Manager.

Lemma hasIndex_iff i g : hasIndex i g = true <-> index g = Some i.
Proof.
  unfold hasIndex. destruct (index g) as [j|]; [|split; discriminate].
  rewrite Z.eqb_eq. split; congruence.
Qed.

Lemma hasIndex_setBusy i b g : hasIndex i (setBusy b g) = hasIndex i g.
Proof. reflexivity. Qed.

Lemma markBusy_absent i b gps :
  Forall (fun g => index g <> Some i) gps -> markBusy i b gps = gps.
Proof.
  induction 1 as [|g gps Hg _ IH]; [reflexivity|].
  unfold markBusy in *. cbn [List.map].
  destruct (hasIndex i g) eqn:Hi; [apply hasIndex_iff in Hi; contradiction|].
  now rewrite IH.
Qed.

(** [markBusy] changes the [busy] flag of the descriptors of one slot and
    nothing else: the list keeps its length, its slots and its connected
    flags, a descriptor of another slot stays as it is, and the call is a
    no-op when the list has no descriptor of that slot. *)
Theorem markBusy_touches_one_slot (i : Z) (b : bool) (gps : list GamepadInfo) :
  length (markBusy i b gps) = length gps
  /\ List.map index (markBusy i b gps) = List.map index gps
  /\ List.map connected (markBusy i b gps) = List.map connected gps
  /\ (forall (k : nat) g, gps !! k = Some g -> index g <> Some i ->
        markBusy i b gps !! k = Some g)
  /\ (forall (k : nat) g, gps !! k = Some g -> index g = Some i ->
        markBusy i b gps !! k = Some (setBusy b g))
  /\ (Forall (fun g => index g <> Some i) gps -> markBusy i b gps = gps).
Proof.
  split; [apply List.length_map|].
  split; [|split; [|split; [|split]]].
  - unfold markBusy. rewrite List.map_map. apply List.map_ext.
    intros g. now destruct (hasIndex i g).
  - unfold markBusy. rewrite List.map_map. apply List.map_ext.
    intros g. now destruct (hasIndex i g).
  - intros k g Hk Hne. unfold markBusy.
    change (List.map ?f gps) with (f <$> gps).
    rewrite list_lookup_fmap, Hk. simpl.
    destruct (hasIndex i g) eqn:Hi; [apply hasIndex_iff in Hi; contradiction|].
    reflexivity.
  - intros k g Hk Heq. unfold markBusy.
    change (List.map ?f gps) with (f <$> gps).
    rewrite list_lookup_fmap, Hk. simpl.
    apply hasIndex_iff in Heq. now rewrite Heq.
  - apply markBusy_absent.
Qed.

(** Successive [markBusy] calls compose as writes to independent cells: on
    one slot the last call wins, on two slots the order does not matter. *)
Theorem markBusy_composes (i j : Z) (b c : bool) (gps : list GamepadInfo) :
  markBusy i b (markBusy i c gps) = markBusy i b gps
  /\ (i <> j -> markBusy i b (markBusy j c gps) = markBusy j c (markBusy i b gps)).
Proof.
  unfold markBusy. rewrite !List.map_map. split.
  - apply List.map_ext. intros g.
    destruct (hasIndex i g) eqn:Hi; [|now rewrite Hi].
    now rewrite hasIndex_setBusy, Hi.
  - intros Hne. apply List.map_ext. intros g.
    destruct (hasIndex i g) eqn:Hi, (hasIndex j g) eqn:Hj;
      rewrite ?hasIndex_setBusy, ?Hi, ?Hj; try reflexivity.
    apply hasIndex_iff in Hi. apply hasIndex_iff in Hj. congruence.
Qed.

Lemma hookAfter_snoc nav0 history a :
  hookAfter nav0 (history ++ [a]) = act a (hookAfter nav0 history).
Proof. unfold hookAfter. now rewrite fold_left_app. Qed.

(** Freeing a slot makes the registry offer a device again: in every state
    of the registry, after [markBusy i false] on the slot of a connected
    descriptor, the [nextAvailable] of the next render returns some slot,
    and with snapshots shaped as the Gamepad API shapes them that slot is
    [i] or a lower one. *)
Theorem markBusy_false_frees_slot
    (nav0 : Navigator) (history : list Action) (i : Z) (g : GamepadInfo) :
  let h := hookAfter nav0 history in
  In g (gamepads h) -> index g = Some i -> connected g = true ->
  let h' := snd (markBusyOp i false h) in
  exists s,
    fst (nextAvailableOp (render h') h') = Some s
    /\ (apiShaped nav0 -> Forall apiShapedAction history -> (s <= i)%Z).
Proof.
  intros h Hin Hidx Hconn. cbv zeta.
  change (snd (markBusyOp i false h)) with (act (MarkBusy i false) h).
  unfold h. rewrite <- hookAfter_snoc.
  set (h' := hookAfter nav0 (history ++ [MarkBusy i false])).
  assert (Hin' : In (setBusy false g) (gamepads h')).
  { unfold h'. rewrite hookAfter_snoc. simpl. unfold markBusy.
    apply List.in_map_iff. exists g. split; [|exact Hin].
    apply hasIndex_iff in Hidx. now rewrite Hidx. }
  assert (Hav : available (setBusy false g) = true).
  { unfold available. simpl. now rewrite Hconn. }
  unfold nextAvailableOp, render. simpl. unfold nextAvailable.
  destruct (List.find available (gamepads h')) as [g0|] eqn:Hfind.
  - pose proof (hookAfter_slotted nav0 (history ++ [MarkBusy i false])) as Hslot.
    fold h' in Hslot. unfold slotted in Hslot. rewrite Forall_forall in Hslot.
    destruct (Hslot g0) as [s Hs].
    { apply list_elem_of_In. now apply List.find_some in Hfind. }
    exists s. split; [exact Hs|]. intros H0 Hall.
    apply (first_available_least (gamepads h') s (setBusy false g) i); auto.
    + apply hookAfter_sorted; [exact H0|].
      apply Forall_app. split; [exact Hall | repeat constructor].
    + unfold nextAvailable. now rewrite Hfind.
  - apply find_none_all in Hfind. rewrite Forall_forall in Hfind.
    rewrite (Hfind (setBusy false g)) in Hav by now apply list_elem_of_In.
    discriminate.
Qed.

Lemma markBusy_false_frees_slot_witness :
  let h' := snd (markBusyOp 0 false (hookAfter twoPads [MarkBusy 0 true; MarkBusy 1 true])) in
  exists s,
    fst (nextAvailableOp (render h') h') = Some s
    /\ (s <= 0)%Z.
Proof.
  destruct (markBusy_false_frees_slot twoPads [MarkBusy 0 true; MarkBusy 1 true] 0
              {| connected := true; id := Some "pad A"; index := Some 0%Z;
                 mapping := Some "standard"; axes := Some 0%nat;
                 buttons := Some 0%nat; battery := None; busy := Some true |})
    as (s & Hs & Hle); [now left | reflexivity | reflexivity |].
  exists s. split; [exact Hs|]. apply Hle.
  - intros [|[|k]] gp Hk; simpl in Hk; try discriminate;
      injection Hk as <-; reflexivity.
  - repeat constructor.
Defined.

Lemma presentPads_in gps gp : In gp (presentPads gps) <-> In (Some gp) gps.
Proof.
  unfold presentPads. rewrite List.in_flat_map. split.
  - intros ([gp'|] & Hin & Hgp); simpl in Hgp; [|contradiction].
    destruct Hgp as [-> | []]. exact Hin.
  - intros Hin. exists (Some gp). split; [exact Hin | now left].
Qed.

Lemma presentPads_length gps : (length (presentPads gps) <= length gps)%nat.
Proof.
  induction gps as [|[gp|] gps IH]; simpl; lia.
Qed.

(** A refresh lists the devices of the non-null slots of the snapshot, in
    slot order, and nothing else: one descriptor per such device, with its
    connected flag, identity, slot, mapping, axis and button counts and
    battery level; null slots leave no entry, and without the polling
    capability the list is empty. *)
Theorem refresh_lists_present_devices (known : list GamepadInfo) (nav : Navigator) :
  let pads := presentPads (getGamepads nav) in
  let gps := updateGamepads known nav in
  updateGamepads known None = []
  /\ (length gps = length pads /\ length gps <= length (getGamepads nav))%nat
  /\ (forall gp, In gp pads <-> In (Some gp) (getGamepads nav))
  /\ List.map index gps = List.map (fun gp => Some (gp_index gp)) pads
  /\ List.map connected gps = List.map gp_connected pads
  /\ List.map id gps = List.map (fun gp => Some (gp_id gp)) pads
  /\ List.map mapping gps = List.map (fun gp => Some (gp_mapping gp)) pads
  /\ List.map axes gps = List.map (fun gp => Some (length (gp_axes gp))) pads
  /\ List.map buttons gps = List.map (fun gp => Some (length (gp_buttons gp))) pads
  /\ List.map battery gps = List.map gp_batteryLevel pads.
Proof.
  intros pads gps.
  assert (Hgps : gps = List.map (describe known) pads)
    by apply updateGamepads_descriptors.
  split; [reflexivity|]. split.
  { rewrite Hgps, List.length_map. split; [reflexivity|].
    apply presentPads_length. }
  split; [intros gp; apply presentPads_in|].
  rewrite Hgps, !List.map_map. repeat split.
Qed.

Lemma sorted_slots_distinct gps :
  StronglySorted slotBefore gps -> NoDup (List.map index gps).
Proof.
  induction 1 as [|g gps _ IH Hall]; simpl; constructor; [|exact IH].
  intros Hin. apply list_elem_of_In, List.in_map_iff in Hin.
  destruct Hin as (g' & Heq & Hin').
  rewrite Forall_forall in Hall.
  destruct (Hall g') as (a & c & Ha & Hc & Hlt); [now apply list_elem_of_In|].
  rewrite Ha, Hc in Heq. injection Heq as Heq. lia.
Qed.

Lemma effectClosure_complete nav :
  apiShaped nav -> Forall complete (effectClosure nav).
Proof.
  intros Hshape.
  destruct (collect_sorted initialGamepads (getGamepads nav) 0) as [_ Hbound].
  { intros k gp Hk. now rewrite (Hshape k gp Hk). }
  pose proof (effectClosure_never_busy nav) as Hbusy.
  unfold effectClosure, updateGamepads in *.
  rewrite Forall_forall in *. intros g Hg.
  destruct (Hbound g Hg) as (j & Hj & Hle).
  exists j, false. auto.
Qed.

Lemma markBusy_complete i b gps :
  Forall complete gps -> Forall complete (markBusy i b gps).
Proof.
  induction 1 as [|g gps Hg _ IH]; simpl; constructor; auto.
  destruct Hg as (j & c & Hj & Hc & Hle).
  destruct (hasIndex i g); [exists j, b | exists j, c]; auto.
Qed.

Lemma hookAfter_complete nav0 history :
  apiShaped nav0 -> Forall apiShapedAction history ->
  Forall complete (gamepads (hookAfter nav0 history)).
Proof.
  intros H0 Hall. unfold hookAfter.
  assert (Hm : Forall complete (gamepads (mount nav0)))
    by now apply effectClosure_complete.
  revert Hm. generalize (mount nav0).
  induction Hall as [|a history Ha _ IH]; simpl; intros h Hh; [exact Hh|].
  apply IH. destruct a as [t nav|i b|]; simpl in *.
  - unfold refresh.
    destruct (match t with IntervalTick => polling h | _ => listening h end);
      simpl; [now apply effectClosure_complete | exact Hh].
  - now apply markBusy_complete.
  - exact Hh.
Qed.

(** With snapshots shaped as the Gamepad API shapes them, every list the
    registry publishes has pairwise distinct slot numbers, in increasing
    order, and every descriptor in it has its slot number (not negative)
    and its busy flag defined. *)
Theorem registry_slots_unique (nav0 : Navigator) (history : list Action) :
  apiShaped nav0 -> Forall apiShapedAction history ->
  let gps := gamepads (hookAfter nav0 history) in
  NoDup (List.map index gps)
  /\ StronglySorted slotBefore gps
  /\ Forall complete gps.
Proof.
  intros H0 Hall gps.
  pose proof (hookAfter_sorted nav0 history H0 Hall) as Hsorted.
  split; [now apply sorted_slots_distinct|].
  split; [exact Hsorted | now apply hookAfter_complete].
Qed.

Lemma registry_slots_unique_witness :
  NoDup (List.map index (gamepads (hookAfter twoPads [MarkBusy 0 true; Refresh IntervalTick twoPads]))).
Proof.
  apply (registry_slots_unique twoPads [MarkBusy 0 true; Refresh IntervalTick twoPads]).
  - intros [|[|k]] gp Hk; simpl in Hk; try discriminate;
      injection Hk as <-; reflexivity.
  - repeat constructor.
    intros [|[|k]] gp Hk; simpl in Hk; try discriminate;
      injection Hk as <-; reflexivity.
Defined.

End RegistryOperations.

(** * Further properties of the input normalizer *)

Section FrameTrace.
Import Joystick.

Lemma loop_trace p l i0 r :
  snd (forEachFrom (buttonStep p) l i0 r)
  = concat (imap (fun k btn => buttonCalls p (value btn) (i0 + k) r) l).
Proof.
  revert i0 r. induction l as [|btn l IH]; intros i0 r; [reflexivity|].
  cbn [forEachFrom]. rewrite andThen_snd, IH. cbn [buttonStep fst snd].
  rewrite imap_cons. cbn [concat]. rewrite Nat.add_0_r. f_equal. f_equal.
  apply imap_ext. intros k b _. cbn.
  replace (i0 + S k)%nat with (S i0 + k)%nat by lia.
  apply buttonCalls_ext. apply prevValueOf_setButton_other.
  intros Heq. apply buttonName_inj in Heq. lia.
Qed.

Lemma loop_cells p l i0 r :
  prevButtonsRef (fst (forEachFrom (buttonStep p) l i0 r))
  = rememberAll l i0 (prevButtonsRef r).
Proof.
  revert i0 r. induction l as [|btn l IH]; intros i0 r; [reflexivity|].
  cbn [forEachFrom rememberAll]. rewrite andThen_fst. cbn [buttonStep fst].
  now rewrite IH.
Qed.

Lemma rememberAll_other l i0 m name :
  (forall k, (k < length l)%nat -> buttonName (i0 + k) <> name) ->
  rememberAll l i0 m !! name = m !! name.
Proof.
  revert i0 m. induction l as [|btn l IH]; intros i0 m Hother; [reflexivity|].
  cbn [rememberAll]. rewrite IH.
  - apply lookup_insert_ne. specialize (Hother 0%nat).
    rewrite Nat.add_0_r in Hother. apply Hother. simpl. lia.
  - intros k Hk. replace (S i0 + k)%nat with (i0 + S k)%nat by lia.
    apply Hother. simpl. lia.
Qed.

Lemma rememberAll_channel l i0 m (k : nat) btn :
  l !! k = Some btn ->
  rememberAll l i0 m !! buttonName (i0 + k) = Some (value btn).
Proof.
  revert i0 m k. induction l as [|b l IH]; intros i0 m k Hk; [discriminate|].
  cbn [rememberAll]. destruct k as [|k].
  - injection Hk as ->. rewrite Nat.add_0_r, rememberAll_other.
    + apply lookup_insert_eq.
    + intros k _ Heq. apply buttonName_inj in Heq. lia.
  - replace (i0 + S k)%nat with (S i0 + k)%nat by lia. now apply IH.
Qed.

Lemma frame_trace p gp now r :
  snd (processFrame p gp now r)
  = sideCalls p (shouldEmit p now r) (atLeft (axesRaw p gp)) left r
    ++ sideCalls p (shouldEmit p now r) (atRight (axesRaw p gp)) right r
    ++ frameButtonCalls p gp r.
Proof.
  rewrite processFrame_events. unfold forEach, frameButtonCalls.
  rewrite loop_trace. reflexivity.
Qed.

Lemma frame_buttons_cells p gp now r :
  prevButtonsRef (fst (processFrame p gp now r))
  = rememberAll (gp_buttons gp) 0 (prevButtonsRef r).
Proof.
  rewrite processFrame_refs. cbv zeta. unfold forEach.
  destruct (shouldEmit p now r); simpl; now rewrite loop_cells.
Qed.

Lemma frame_lastEmitTime p gp now r :
  lastEmitTimeRef (fst (processFrame p gp now r))
  = if shouldEmit p now r then now else lastEmitTimeRef r.
Proof.
  rewrite processFrame_refs. cbv zeta. unfold forEach.
  destruct (buttons_keep_axes p (gp_buttons gp) 0 (afterAxes p gp r)) as (Ht & _).
  destruct (shouldEmit p now r); simpl; [reflexivity | now rewrite Ht].
Qed.

End FrameTrace.

Section FrameEdges.
Import Joystick.

Lemma gamepadAt_none gps i :
  gamepadAt gps i = None <->
  (i < 0)%Z \/ gps !! Z.to_nat i = None \/ gps !! Z.to_nat i = Some None.
Proof.
  unfold gamepadAt. destruct (Z.ltb_spec i 0) as [Hneg | Hpos].
  - split; auto.
  - destruct (gps !! Z.to_nat i) as [[gp|]|]; split; auto;
      try discriminate; intros [H | [H | H]]; try discriminate; lia.
Qed.

(** A frame in which the configured slot holds no device is skipped whole:
    no callback is called and no ref changes.  That is the case when the
    device index is negative or past the end of the snapshot, when the slot
    is null, and when the browser has no polling capability; a run of such
    frames leaves the instance exactly as it was. *)
Theorem absent_device_skips_frame
    (p : GamepadJoystickProps) (nav : Navigator) (now : Q) (r : Refs) :
  (gamepadAt (getGamepads nav) (id p) = None <->
     (id p < 0)%Z
     \/ getGamepads nav !! Z.to_nat (id p) = None
     \/ getGamepads nav !! Z.to_nat (id p) = Some None)
  /\ (gamepadAt (getGamepads nav) (id p) = None -> poll p nav now r = (r, []))
  /\ poll p None now r = (r, [])
  /\ (forall frames,
        Forall (fun f => gamepadAt (getGamepads (fst f)) (id p) = None) frames ->
        pollAll p frames r = (r, [])).
Proof.
  split; [apply gamepadAt_none|]. split; [apply poll_absent|].
  split.
  { apply poll_absent. apply gamepadAt_none. simpl.
    destruct (Z.ltb_spec (id p) 0); auto. }
  intros frames Hall. induction Hall as [|[nav' now'] frames Hf _ IH]; [reflexivity|].
  cbn [pollAll]. unfold andThen. simpl in Hf.
  now rewrite (poll_absent _ _ _ _ Hf), IH.
Qed.

(** Under [JOYSTICK_EMIT_ALWAYS], for a side whose callback is supplied, a
    processed frame calls it exactly when the frame is rate-eligible, with
    the filtered pair of that frame, whether or not the pair changed. *)
Theorem emit_always_policy
    (p : GamepadJoystickProps) (nav : Navigator) (gp : Gamepad) (now : Q)
    (r : Refs) (s : Side) :
  joystickEmitMode p = JOYSTICK_EMIT_ALWAYS ->
  callbackOf p s = true ->
  gamepadAt (getGamepads nav) (id p) = Some gp ->
  let next := at_side (axesRaw p gp) s in
  movesOf s (snd (poll p nav now r))
  = if shouldEmit p now r then [(dx next, dy next)] else [].
Proof.
  intros Hmode Hcb Hgp next.
  rewrite (poll_present _ _ _ _ _ Hgp). now apply frame_moves_always.
Qed.

Lemma emit_always_policy_witness :
  let p := {| id := 0; onLeftJoystickMove := true; onRightJoystickMove := true;
              onButtonBinary := true; onButtonAnalog := true;
              joystickRateHz := 30; joystickEmitMode := JOYSTICK_EMIT_ALWAYS;
              deadzone := 1 # 10; triggerThreshold := 1 # 10;
              triggerEpsilon := 1 # 100 |} in
  movesOf left (snd (poll p (only (leftStickAt 0)) 40 initialRefs)) = [(0, 0)%Q]
  /\ movesOf left (snd (poll p (only (leftStickAt 0)) 20 initialRefs)) = [].
Proof.
  intros p. split.
  - apply (emit_always_policy p (only (leftStickAt 0)) (leftStickAt 0) 40%Q
             initialRefs left); reflexivity.
  - apply (emit_always_policy p (only (leftStickAt 0)) (leftStickAt 0) 20%Q
             initialRefs left); reflexivity.
Defined.

(** Channel names: the first 17 channels carry the names of the table, the
    later ones "Button" followed by the decimal index, and no two channels
    share a name, so every channel has a cell of its own in
    [prevButtonsRef]. *)
Theorem button_names_distinct :
  length STANDARD_BUTTONS = 17%nat
  /\ (forall i name, STANDARD_BUTTONS !! i = Some name -> buttonName i = name)
  /\ (forall i, (17 <= i)%nat -> buttonName i = "Button" +:+ pretty i)
  /\ (forall i j, buttonName i = buttonName j -> i = j).
Proof.
  split; [reflexivity|]. split; [apply buttonName_standard|].
  split; [|apply buttonName_inj].
  intros i Hi. apply buttonName_positional. now apply lookup_ge_None.
Qed.

(** A processed frame stores the raw value of every channel of the device
    in that channel's cell, whatever the callbacks, the threshold and the
    calls made; the cells of all other names keep their value. *)
Theorem buttons_remembered
    (p : GamepadJoystickProps) (nav : Navigator) (gp : Gamepad) (now : Q) (r : Refs) :
  gamepadAt (getGamepads nav) (id p) = Some gp ->
  let r' := fst (poll p nav now r) in
  (forall (i : nat) btn, gp_buttons gp !! i = Some btn ->
      prevValueOf r' (buttonName i) = value btn)
  /\ (forall name,
        (forall i, (i < length (gp_buttons gp))%nat -> buttonName i <> name) ->
        prevValueOf r' name = prevValueOf r name).
Proof.
  intros Hgp r'. unfold r'. rewrite (poll_present _ _ _ _ _ Hgp).
  unfold prevValueOf. rewrite frame_buttons_cells. split.
  - intros i btn Hbtn.
    now rewrite (rememberAll_channel _ 0 _ i btn Hbtn).
  - intros name Hother. now rewrite rememberAll_other.
Qed.

Lemma buttons_remembered_witness :
  let r' := fst (poll (withCallbacks false false false false (defaultProps 0))
                   (only (pad [] [0; 1 # 3]%Q)) 5 initialRefs) in
  prevValueOf r' "Face2" = (1 # 3)%Q /\ prevValueOf r' "Face3" = 0%Q.
Proof.
  intros r'.
  destruct (buttons_remembered (withCallbacks false false false false (defaultProps 0))
              (only (pad [] [0; 1 # 3]%Q)) (pad [] [0; 1 # 3]%Q) 5%Q initialRefs eq_refl)
    as [Hin Hout].
  split.
  - apply (Hin 1%nat {| value := 1 # 3 |}). reflexivity.
  - rewrite Hout; [reflexivity|].
    intros i Hi Heq. change "Face3" with (buttonName 2) in Heq.
    apply buttonName_inj in Heq. simpl in Hi. lia.
Defined.

End FrameEdges.

Section RateGate.
Import Joystick.

Lemma shouldEmit_gap p now r :
  shouldEmit p now r = true -> (intervalMs p <= now - lastEmitTimeRef r)%Q.
Proof.
  unfold shouldEmit, Qge_bool.
  destruct (Qeq_bool (joystickRateHz p) 0); [discriminate|].
  apply Qle_bool_iff.
Qed.

Lemma poll_lastEmitTime p nav now r :
  lastEmitTimeRef (fst (poll p nav now r))
  = match gamepadAt (getGamepads nav) (id p) with
    | Some _ => if shouldEmit p now r then now else lastEmitTimeRef r
    | None => lastEmitTimeRef r
    end.
Proof.
  unfold poll. destruct (gamepadAt (getGamepads nav) (id p)); [|reflexivity].
  apply frame_lastEmitTime.
Qed.

Lemma eligibleTimes_spaced p frames r :
  spacedFrom (lastEmitTimeRef r) (intervalMs p) (eligibleTimes p frames r).
Proof.
  revert r. induction frames as [|[nav now] frames IH]; intros r; [exact I|].
  cbn [eligibleTimes]. specialize (IH (fst (poll p nav now r))).
  rewrite poll_lastEmitTime in IH.
  destruct (gamepadAt (getGamepads nav) (id p)); [|exact IH].
  destruct (shouldEmit p now r) eqn:He; [|exact IH].
  split; [now apply shouldEmit_gap | exact IH].
Qed.

Lemma eligibleTimes_count p frames r s :
  joystickEmitMode p = JOYSTICK_EMIT_ALWAYS ->
  callbackOf p s = true ->
  length (movesOf s (snd (pollAll p frames r))) = length (eligibleTimes p frames r).
Proof.
  intros Hmode Hcb. revert r. induction frames as [|[nav now] frames IH]; intros r; [reflexivity|].
  cbn [pollAll eligibleTimes].
  rewrite andThen_snd, movesOf_app, !List.length_app, IH. f_equal.
  unfold poll. destruct (gamepadAt (getGamepads nav) (id p)) as [gp|]; [|reflexivity].
  rewrite (frame_moves_always _ _ _ _ _ Hmode Hcb).
  now destruct (shouldEmit p now r).
Qed.

(** The rate gate over a run of frames of one loop: two successive
    rate-eligible frames lie at least [1000 / joystickRateHz] ms apart, the
    first at least that long after the last-emit timestamp the run started
    with; with a rate of 0 no frame is ever eligible; and under
    [JOYSTICK_EMIT_ALWAYS] a supplied move callback is called once per
    eligible frame, so as many times as there are eligible frames. *)
Theorem rate_gate_spacing
    (p : GamepadJoystickProps) (frames : list (Navigator * Q)) (r : Refs) :
  spacedFrom (lastEmitTimeRef r) (intervalMs p) (eligibleTimes p frames r)
  /\ (Qeq_bool (joystickRateHz p) 0 = true -> eligibleTimes p frames r = [])
  /\ (forall s,
        joystickEmitMode p = JOYSTICK_EMIT_ALWAYS -> callbackOf p s = true ->
        length (movesOf s (snd (pollAll p frames r)))
        = length (eligibleTimes p frames r)).
Proof.
  split; [apply eligibleTimes_spaced|]. split.
  - intros Hzero. revert r.
    induction frames as [|[nav now] frames IH]; intros r; [reflexivity|].
    cbn [eligibleTimes]. rewrite IH. unfold shouldEmit. rewrite Hzero.
    now destruct (gamepadAt (getGamepads nav) (id p)).
  - intros s Hmode Hcb. now apply eligibleTimes_count.
Qed.

(** Frames every 16 to 17 ms against a rate of 30 Hz: every third frame is
    eligible. *)
Example rate_gate_at_60_fps :
  eligibleTimes (defaultProps 0)
    (List.map (fun t => (only (leftStickAt 0), t)) [16; 33; 50; 66; 83; 100]%Q)
    initialRefs
  = [50; 100]%Q.
Proof. reflexivity. Qed.

End RateGate.

Section FrameShape.
Import Joystick.

Lemma frameButtonCalls_loop p gp r :
  frameButtonCalls p gp r = snd (forEach (buttonStep p) (gp_buttons gp) r).
Proof. unfold forEach. now rewrite loop_trace. Qed.

Lemma buttonCalls_only_buttons p v i r :
  Forall (fun e => isButtonEvent e = true) (buttonCalls p v i r).
Proof.
  unfold buttonCalls.
  repeat match goal with |- context [if ?c then _ else _] => destruct c end;
    repeat constructor.
Qed.

Lemma loop_only_buttons p l i0 r :
  Forall (fun e => isButtonEvent e = true) (snd (forEachFrom (buttonStep p) l i0 r)).
Proof.
  revert i0 r. induction l as [|btn l IH]; intros i0 r; [constructor|].
  cbn [forEachFrom]. rewrite andThen_snd. apply Forall_app. split; [|apply IH].
  apply buttonCalls_only_buttons.
Qed.

Lemma filter_all {A} (f : A -> bool) (l : list A) :
  Forall (fun x => f x = true) l -> List.filter f l = l.
Proof.
  induction 1 as [|x l Hx _ IH]; simpl; [reflexivity|]. now rewrite Hx, IH.
Qed.

Lemma buttonsOnly_sideCalls p e next s r : buttonsOnly (sideCalls p e next s r) = [].
Proof.
  unfold sideCalls. destruct (joystickEmitMode p);
    repeat match goal with |- context [if ?c then _ else _] => destruct c end;
    reflexivity.
Qed.

Lemma buttonsOnly_frame p gp now r :
  buttonsOnly (snd (processFrame p gp now r)) = frameButtonCalls p gp r.
Proof.
  rewrite frame_trace. unfold buttonsOnly.
  rewrite !List.filter_app.
  fold (buttonsOnly (sideCalls p (shouldEmit p now r) (atLeft (axesRaw p gp)) left r)).
  fold (buttonsOnly (sideCalls p (shouldEmit p now r) (atRight (axesRaw p gp)) right r)).
  rewrite !buttonsOnly_sideCalls. simpl.
  apply filter_all. rewrite frameButtonCalls_loop. apply loop_only_buttons.
Qed.

(** What a side's pass through the axes loop calls: nothing, or one move of
    that side. *)
Lemma sideCalls_shape p e next s r :
  sideCalls p e next s r
  = List.map (fun xy => JoystickMove s (fst xy) (snd xy))
      (movesOf s (sideCalls p e next s r))
  /\ (length (movesOf s (sideCalls p e next s r)) <= 1)%nat.
Proof.
  unfold sideCalls. destruct (joystickEmitMode p), s;
    repeat match goal with |- context [if ?c then _ else _] => destruct c end;
    simpl; split; (reflexivity || lia).
Qed.

(** The calls of a processed frame come in a fixed order: at most one move
    of the left side, then at most one of the right side, then the button
    calls channel by channel in index order; and although the buttons loop
    writes the refs as it goes, every channel's calls are those computed
    against the refs as the frame found them. *)
Theorem frame_call_order
    (p : GamepadJoystickProps) (nav : Navigator) (gp : Gamepad) (now : Q) (r : Refs) :
  gamepadAt (getGamepads nav) (id p) = Some gp ->
  let evs := snd (poll p nav now r) in
  evs = List.map (fun xy => JoystickMove left (fst xy) (snd xy)) (movesOf left evs)
        ++ List.map (fun xy => JoystickMove right (fst xy) (snd xy)) (movesOf right evs)
        ++ concat (imap (fun i btn => buttonCalls p (value btn) i r) (gp_buttons gp))
  /\ (length (movesOf left evs) <= 1)%nat
  /\ (length (movesOf right evs) <= 1)%nat.
Proof.
  intros Hgp evs. unfold evs. rewrite (poll_present _ _ _ _ _ Hgp).
  rewrite !frame_moves.
  destruct (sideCalls_shape p (shouldEmit p now r) (at_side (axesRaw p gp) left) left r)
    as [HL HlenL].
  destruct (sideCalls_shape p (shouldEmit p now r) (at_side (axesRaw p gp) right) right r)
    as [HR HlenR].
  split; [|split; assumption].
  rewrite <- HL, <- HR. apply frame_trace.
Qed.

Lemma frame_call_order_witness :
  let p := defaultProps 0 in
  let gp := pad [1 # 2; 0; 0; - (1 # 2)]%Q [1; 0; 0; 0; 0; 0; 1]%Q in
  snd (poll p (only gp) 40 initialRefs)
  = [ JoystickMove left (1 # 2) 0; JoystickMove right 0 (- - (1 # 2));
      ButtonBinary "Face1" true;
      ButtonBinary "LeftTrigger" true; ButtonAnalog "LeftTrigger" 1 ]%Q.
Proof.
  intros p gp.
  destruct (frame_call_order p (only gp) gp 40%Q initialRefs eq_refl) as [Hevs _].
  rewrite Hevs. reflexivity.
Defined.

End FrameShape.

Section QuietFrames.
Import Joystick.

Lemma Qabs_self_difference v : (Qabs (v - v) == 0)%Q.
Proof.
  assert (H : (v - v == 0)%Q) by ring.
  rewrite H. reflexivity.
Qed.

(** The calls for a channel whose raw value is the remembered one: no edge
    call; an analog call only if 0 exceeds the epsilon. *)
Lemma buttonCalls_unchanged p v i r :
  prevValueOf r (buttonName i) = v ->
  Forall (fun e => match e with ButtonBinary _ _ => False | _ => True end)
    (buttonCalls p v i r)
  /\ ((0 <= triggerEpsilon p)%Q -> buttonCalls p v i r = []).
Proof.
  intros Hprev. unfold buttonCalls. rewrite Hprev.
  rewrite andb_negb_l, andb_negb_r. cbn [andb app].
  split.
  - destruct (isTrigger i && Qgt_bool (Qabs (v - v)) (triggerEpsilon p)
              && onButtonAnalog p); repeat constructor.
  - intros Heps.
    assert (Hno : Qgt_bool (Qabs (v - v)) (triggerEpsilon p) = false)
      by (apply Qgt_bool_false; now rewrite Qabs_self_difference).
    now rewrite Hno, andb_false_r.
Qed.

Lemma loop_unchanged p l i0 r :
  (forall (k : nat) btn, l !! k = Some btn ->
      prevValueOf r (buttonName (i0 + k)) = value btn) ->
  Forall (fun e => match e with ButtonBinary _ _ => False | _ => True end)
    (snd (forEachFrom (buttonStep p) l i0 r))
  /\ ((0 <= triggerEpsilon p)%Q -> snd (forEachFrom (buttonStep p) l i0 r) = []).
Proof.
  revert i0 r. induction l as [|btn l IH]; intros i0 r Hsame.
  - split; [constructor | reflexivity].
  - cbn [forEachFrom]. rewrite andThen_snd. cbn [buttonStep fst snd].
    destruct (buttonCalls_unchanged p (value btn) i0 r) as [Hhead Hhead0].
    { specialize (Hsame 0%nat btn eq_refl). now rewrite Nat.add_0_r in Hsame. }
    destruct (IH (S i0) (setButton (buttonName i0) (value btn) r)) as [Htail Htail0].
    { intros k b Hk. rewrite prevValueOf_setButton_other.
      - replace (S i0 + k)%nat with (i0 + S k)%nat by lia. now apply Hsame.
      - intros Heq. apply buttonName_inj in Heq. lia. }
    split.
    + apply Forall_app. split; assumption.
    + intros Heps. now rewrite Hhead0, Htail0.
Qed.

Lemma frame_cell_of_channel p gp now r (i : nat) btn :
  gp_buttons gp !! i = Some btn ->
  prevValueOf (fst (processFrame p gp now r)) (buttonName i) = value btn.
Proof.
  intros Hbtn. unfold prevValueOf. rewrite frame_buttons_cells.
  now rewrite (rememberAll_channel _ 0 _ i btn Hbtn).
Qed.

(** Polling an unchanged device again is quiet.  When a frame presents the
    device state the frame before it presented (at whatever times), the
    second frame makes no edge call; with a non-negative epsilon it makes no
    button call at all; and if moreover both sticks are at rest and the mode
    is [JOYSTICK_EMIT_ON_CHANGE], it calls nothing. *)
Theorem repeated_snapshot_is_quiet
    (p : GamepadJoystickProps) (nav : Navigator) (gp : Gamepad) (now now' : Q)
    (r : Refs) :
  gamepadAt (getGamepads nav) (id p) = Some gp ->
  let evs := snd (poll p nav now' (fst (poll p nav now r))) in
  Forall (fun e => match e with ButtonBinary _ _ => False | _ => True end) evs
  /\ ((0 <= triggerEpsilon p)%Q -> buttonsOnly evs = [])
  /\ ((0 <= triggerEpsilon p)%Q ->
      joystickEmitMode p = JOYSTICK_EMIT_ON_CHANGE ->
      isNeutral (atLeft (axesRaw p gp)) = true ->
      isNeutral (atRight (axesRaw p gp)) = true ->
      evs = []).
Proof.
  intros Hgp evs. unfold evs. rewrite !(poll_present _ _ _ _ _ Hgp).
  set (r1 := fst (processFrame p gp now r)).
  destruct (loop_unchanged p (gp_buttons gp) 0 r1) as [Hedges Hnone].
  { intros k btn Hk. now apply frame_cell_of_channel. }
  fold (forEach (buttonStep p) (gp_buttons gp) r1) in Hedges, Hnone.
  rewrite <- frameButtonCalls_loop in Hedges, Hnone.
  split; [|split].
  - rewrite frame_trace. rewrite !Forall_app. repeat split; [| |exact Hedges].
    + unfold sideCalls. destruct (joystickEmitMode p);
        repeat match goal with |- context [if ?c then _ else _] => destruct c end;
        repeat constructor.
    + unfold sideCalls. destruct (joystickEmitMode p);
        repeat match goal with |- context [if ?c then _ else _] => destruct c end;
        repeat constructor.
  - intros Heps. rewrite buttonsOnly_frame. now apply Hnone.
  - intros Heps Hmode HnL HnR. rewrite frame_trace, (Hnone Heps).
    subst r1. unfold sideCalls. rewrite Hmode, HnL, HnR.
    rewrite (proj2 (frame_cells p gp now r left)).
    rewrite (proj2 (frame_cells p gp now r right)).
    cbn [at_side]. rewrite HnL, HnR. reflexivity.
Qed.

Lemma repeated_snapshot_is_quiet_witness :
  let p := defaultProps 0 in
  let nav := only (pad [0; 0; 0; 0]%Q [1; 0; 0; 0; 0; 0; 1 # 2]%Q) in
  snd (poll p nav 50 (fst (poll p nav 10 initialRefs))) = [].
Proof.
  intros p nav.
  destruct (repeated_snapshot_is_quiet p nav
              (pad [0; 0; 0; 0]%Q [1; 0; 0; 0; 0; 0; 1 # 2]%Q) 10 50 initialRefs eq_refl)
    as (_ & _ & Hquiet).
  apply Hquiet; [vm_compute; discriminate | reflexivity | reflexivity | reflexivity].
Defined.

End QuietFrames.

Section Callbacks.
Import Joystick.

Lemma sideCalls_filter onL onR onB onA p e next s r :
  sideCalls (withCallbacks onL onR onB onA p) e next s r
  = List.filter (keeps onL onR onB onA)
      (sideCalls (withCallbacks true true true true p) e next s r).
Proof.
  unfold sideCalls, callbackOf. cbn [withCallbacks joystickEmitMode
    onLeftJoystickMove onRightJoystickMove].
  destruct (joystickEmitMode p), s, onL, onR; cbn [andb];
    rewrite ?andb_false_r, ?andb_true_r;
    repeat match goal with |- context [if ?c then _ else _] => destruct c end;
    reflexivity.
Qed.

Lemma buttonCalls_filter onL onR onB onA p v i r :
  buttonCalls (withCallbacks onL onR onB onA p) v i r
  = List.filter (keeps onL onR onB onA)
      (buttonCalls (withCallbacks true true true true p) v i r).
Proof.
  unfold buttonCalls. cbn [withCallbacks triggerThreshold triggerEpsilon
    onButtonBinary onButtonAnalog].
  rewrite !andb_true_r, !List.filter_app.
  destruct onB, onA; rewrite ?andb_true_r, ?andb_false_r;
    repeat match goal with |- context [if ?c then _ else _] => destruct c end;
    reflexivity.
Qed.

(** The refs the buttons loop leaves do not depend on the props. *)
Lemma loop_refs_any p p' l i0 r :
  fst (forEachFrom (buttonStep p) l i0 r) = fst (forEachFrom (buttonStep p') l i0 r).
Proof.
  revert i0 r. induction l as [|btn l IH]; intros i0 r; [reflexivity|].
  cbn [forEachFrom]. rewrite !andThen_fst. cbn [buttonStep fst]. apply IH.
Qed.

Lemma loop_filter onL onR onB onA p l i0 r :
  snd (forEachFrom (buttonStep (withCallbacks onL onR onB onA p)) l i0 r)
  = List.filter (keeps onL onR onB onA)
      (snd (forEachFrom (buttonStep (withCallbacks true true true true p)) l i0 r)).
Proof.
  revert i0 r. induction l as [|btn l IH]; intros i0 r; [reflexivity|].
  cbn [forEachFrom]. rewrite !andThen_snd, List.filter_app. cbn [buttonStep fst snd].
  now rewrite IH, buttonCalls_filter.
Qed.

(** Leaving a callback out removes its calls and changes nothing else: the
    calls of a frame are those of the same frame with all four callbacks
    supplied, minus the calls of the callbacks left out, in the same order;
    and the refs after the frame are the same whichever callbacks are
    supplied. *)
Theorem unsupplied_callbacks_drop_calls
    (onL onR onB onA : bool) (p : GamepadJoystickProps) (nav : Navigator)
    (now : Q) (r : Refs) :
  snd (poll (withCallbacks onL onR onB onA p) nav now r)
  = List.filter (keeps onL onR onB onA)
      (snd (poll (withCallbacks true true true true p) nav now r))
  /\ fst (poll (withCallbacks onL onR onB onA p) nav now r) = fst (poll p nav now r).
Proof.
  unfold poll. cbn [withCallbacks id].
  destruct (gamepadAt (getGamepads nav) (id p)) as [gp|]; [|split; reflexivity].
  split.
  - rewrite !processFrame_events, !List.filter_app.
    rewrite !(sideCalls_filter onL onR onB onA p).
    unfold forEach. rewrite (loop_filter onL onR onB onA p). reflexivity.
  - rewrite !processFrame_refs. cbv zeta. unfold forEach.
    rewrite (loop_refs_any (withCallbacks onL onR onB onA p) p). reflexivity.
Qed.

End Callbacks.

Section ReportedValues.
Import Joystick.

Lemma filterX_outside dz a : outsideDeadzone dz (filterX dz a).
Proof.
  unfold filterX, outsideDeadzone. destruct a as [v|]; [|now left].
  destruct (Qgt_bool (Qabs v) dz) eqn:Hv; [|now left].
  right. now apply Qgt_bool_true.
Qed.

Lemma filterY_outside dz a : outsideDeadzone dz (filterY dz a).
Proof.
  unfold filterY, outsideDeadzone. destruct a as [v|]; [|now left].
  destruct (Qgt_bool (Qabs v) dz) eqn:Hv; [|now left].
  right. rewrite Qabs_opp. now apply Qgt_bool_true.
Qed.

Lemma sideCalls_outside p e raw s r x y s' :
  In (JoystickMove s' x y) (sideCalls p e (at_side (axesRaw p raw) s) s r) ->
  outsideDeadzone (deadzone p) x /\ outsideDeadzone (deadzone p) y.
Proof.
  assert (Hnext : outsideDeadzone (deadzone p) (dx (at_side (axesRaw p raw) s))
                  /\ outsideDeadzone (deadzone p) (dy (at_side (axesRaw p raw) s))).
  { destruct s; simpl; split; auto using filterX_outside, filterY_outside. }
  assert (Hzero : outsideDeadzone (deadzone p) 0) by (now left).
  unfold sideCalls. destruct (joystickEmitMode p);
    repeat match goal with |- context [if ?c then _ else _] => destruct c end;
    simpl; intros Hin; try contradiction;
    destruct Hin as [Heq | Hin]; try contradiction;
    injection Heq as _ <- <-; auto.
Qed.

(** No value inside the deadzone is ever reported: each coordinate of every
    move call is 0 or has a magnitude above [deadzone]. *)
Theorem moves_outside_deadzone
    (p : GamepadJoystickProps) (nav : Navigator) (now : Q) (r : Refs)
    (s : Side) (x y : Q) :
  In (JoystickMove s x y) (snd (poll p nav now r)) ->
  outsideDeadzone (deadzone p) x /\ outsideDeadzone (deadzone p) y.
Proof.
  unfold poll. destruct (gamepadAt (getGamepads nav) (id p)) as [gp|]; [|intros []].
  rewrite frame_trace. rewrite !List.in_app_iff. intros [Hin | [Hin | Hin]].
  - exact (sideCalls_outside p (shouldEmit p now r) gp left r x y s Hin).
  - exact (sideCalls_outside p (shouldEmit p now r) gp right r x y s Hin).
  - rewrite frameButtonCalls_loop in Hin.
    pose proof (loop_only_buttons p (gp_buttons gp) 0 r) as Hall.
    rewrite Forall_forall in Hall.
    apply list_elem_of_In, Hall in Hin. discriminate.
Qed.

Lemma moves_outside_deadzone_witness :
  outsideDeadzone (1 # 10) (1 # 2) /\ outsideDeadzone (1 # 10) 0.
Proof.
  apply (moves_outside_deadzone (defaultProps 0) (only (leftStickAt (1 # 2))) 40
           initialRefs left (1 # 2) 0).
  now left.
Defined.

End ReportedValues.

Section ButtonsEveryFrame.
Import Joystick.

Lemma buttonCalls_same_settings p p' v i r r' :
  triggerThreshold p = triggerThreshold p' ->
  triggerEpsilon p = triggerEpsilon p' ->
  onButtonBinary p = onButtonBinary p' ->
  onButtonAnalog p = onButtonAnalog p' ->
  prevButtonsRef r = prevButtonsRef r' ->
  buttonCalls p v i r = buttonCalls p' v i r'.
Proof.
  intros Ht He Hb Ha Hr. unfold buttonCalls, prevValueOf.
  now rewrite Ht, He, Hb, Ha, Hr.
Qed.

(** Buttons are evaluated on every processed frame, whatever the rate, the
    time, the emit mode and the deadzone: two frames on the same snapshot
    whose props agree on device index, threshold, epsilon and the two button
    callbacks, and whose refs agree on the remembered button values, make
    the same button calls and leave the same remembered button values. *)
Theorem buttons_ignore_rate_and_mode
    (p p' : GamepadJoystickProps) (nav : Navigator) (now now' : Q) (r r' : Refs) :
  id p = id p' ->
  triggerThreshold p = triggerThreshold p' ->
  triggerEpsilon p = triggerEpsilon p' ->
  onButtonBinary p = onButtonBinary p' ->
  onButtonAnalog p = onButtonAnalog p' ->
  prevButtonsRef r = prevButtonsRef r' ->
  buttonsOnly (snd (poll p nav now r)) = buttonsOnly (snd (poll p' nav now' r'))
  /\ prevButtonsRef (fst (poll p nav now r)) = prevButtonsRef (fst (poll p' nav now' r')).
Proof.
  intros Hid Ht He Hb Ha Hr. unfold poll. rewrite <- Hid.
  destruct (gamepadAt (getGamepads nav) (id p)) as [gp|]; [|split; [reflexivity | exact Hr]].
  split.
  - rewrite !buttonsOnly_frame. unfold frameButtonCalls. f_equal.
    apply imap_ext. intros i btn _. now apply buttonCalls_same_settings.
  - rewrite !frame_buttons_cells. now rewrite Hr.
Qed.

Lemma buttons_ignore_rate_and_mode_witness :
  let p := defaultProps 0 in
  let p' := {| id := 0; onLeftJoystickMove := false; onRightJoystickMove := true;
               onButtonBinary := true; onButtonAnalog := true;
               joystickRateHz := 0; joystickEmitMode := JOYSTICK_EMIT_ALWAYS;
               deadzone := 1 # 2; triggerThreshold := 1 # 10;
               triggerEpsilon := 1 # 100 |} in
  let nav := only (pad [1; 1; 1; 1]%Q [1%Q]) in
  buttonsOnly (snd (poll p nav 100 initialRefs))
  = buttonsOnly (snd (poll p' nav 1 (setLastEmitTime 7 initialRefs))).
Proof.
  intros p p' nav.
  apply (buttons_ignore_rate_and_mode p p' nav 100 1 initialRefs
           (setLastEmitTime 7 initialRefs)); reflexivity.
Defined.

End ButtonsEveryFrame.

(** * Properties of the earlier version of the normalizer *)

Section LegacyAxes.
Import Joystick.

Lemma legacy_andThen_fst (f g : Legacy.Step) r :
  fst (Legacy.andThen f g r) = fst (g (fst (f r))).
Proof.
  unfold Legacy.andThen. destruct (f r) as [r1 e1]. simpl.
  now destruct (g r1) as [r2 e2].
Qed.

Lemma legacy_andThen_snd (f g : Legacy.Step) r :
  snd (Legacy.andThen f g r) = snd (f r) ++ snd (g (fst (f r))).
Proof.
  unfold Legacy.andThen. destruct (f r) as [r1 e1]. simpl.
  now destruct (g r1) as [r2 e2].
Qed.

Lemma legacy_buttons_keep_axes p l i r :
  Legacy.prevAxesRef (fst (Legacy.forEachFrom (Legacy.buttonStep p) l i r))
  = Legacy.prevAxesRef r
  /\ Legacy.lastUpdateRef (fst (Legacy.forEachFrom (Legacy.buttonStep p) l i r))
     = Legacy.lastUpdateRef r.
Proof.
  revert i r. induction l as [|btn l IH]; intros i r; [split; reflexivity|].
  cbn [Legacy.forEachFrom]. rewrite legacy_andThen_fst.
  destruct (IH (S i) (fst (Legacy.buttonStep p btn i r))) as [Ha Ht].
  rewrite Ha, Ht. split; reflexivity.
Qed.

Lemma legacy_buttons_no_moves s p l i r :
  movesOf s (snd (Legacy.forEachFrom (Legacy.buttonStep p) l i r)) = [].
Proof.
  revert i r. induction l as [|btn l IH]; intros i r; [reflexivity|].
  cbn [Legacy.forEachFrom]. rewrite legacy_andThen_snd, movesOf_app, IH, app_nil_r.
  unfold Legacy.buttonStep. cbn [snd].
  repeat match goal with |- context [if ?c then _ else _] => destruct c end;
    reflexivity.
Qed.

(** One side's block under on-change: it reports nothing and keeps the
    remembered pair, or it reports a pair that differs from the remembered
    one and remembers it. *)
Lemma legacy_sideUpdate_own p s x y r rest :
  Legacy.joystickEmitMode p = JOYSTICK_EMIT_ON_CHANGE ->
  Legacy.eachChanged (at_side (Legacy.prevAxesRef (fst (Legacy.sideUpdate p s x y r))) s) rest ->
  Legacy.eachChanged (at_side (Legacy.prevAxesRef r) s)
    (movesOf s (snd (Legacy.sideUpdate p s x y r)) ++ rest).
Proof.
  intros Hmode. unfold Legacy.sideUpdate. rewrite Hmode.
  destruct (Legacy.callbackOf p s); [|simpl; auto].
  cbn [orb].
  destruct (Qneq_bool x (dx (at_side (Legacy.prevAxesRef r) s))
            || Qneq_bool y (dy (at_side (Legacy.prevAxesRef r) s))) eqn:Hch;
    [|simpl; auto].
  destruct s; simpl; intros Hrest; split; assumption.
Qed.

Lemma legacy_sideUpdate_other p s s' x y r :
  s <> s' ->
  movesOf s (snd (Legacy.sideUpdate p s' x y r)) = []
  /\ at_side (Legacy.prevAxesRef (fst (Legacy.sideUpdate p s' x y r))) s
     = at_side (Legacy.prevAxesRef r) s.
Proof.
  intros Hne. unfold Legacy.sideUpdate.
  destruct s, s'; try congruence;
    repeat match goal with |- context [if ?c then _ else _] => destruct c end;
    split; reflexivity.
Qed.

Lemma legacy_axesUpdate_step p gp now s r rest :
  Legacy.joystickEmitMode p = JOYSTICK_EMIT_ON_CHANGE ->
  Legacy.eachChanged (at_side (Legacy.prevAxesRef (fst (Legacy.axesUpdate p gp now r))) s) rest ->
  Legacy.eachChanged (at_side (Legacy.prevAxesRef r) s)
    (movesOf s (snd (Legacy.axesUpdate p gp now r)) ++ rest).
Proof.
  intros Hmode. unfold Legacy.axesUpdate.
  destruct (Legacy.allowAxesUpdate p now r); [|simpl; auto].
  cbv zeta. rewrite legacy_andThen_fst, legacy_andThen_snd, movesOf_app.
  set (r0 := {| Legacy.lastUpdateRef := now;
                Legacy.prevAxesRef := Legacy.prevAxesRef r;
                Legacy.prevButtonsRef := Legacy.prevButtonsRef r |}).
  change (Legacy.prevAxesRef r) with (Legacy.prevAxesRef r0).
  destruct s.
  - set (xl := filterX (1 # 10) (gp_axes gp !! 0%nat)).
    set (yl := filterY (1 # 10) (gp_axes gp !! 1%nat)).
    set (r1 := fst (Legacy.sideUpdate p left xl yl r0)).
    destruct (legacy_sideUpdate_other p left right
                (filterX (1 # 10) (gp_axes gp !! 2%nat))
                (filterY (1 # 10) (gp_axes gp !! 3%nat)) r1) as [Hm Hp];
      [discriminate|].
    rewrite Hm, Hp, app_nil_r. now apply legacy_sideUpdate_own.
  - set (xl := filterX (1 # 10) (gp_axes gp !! 0%nat)).
    set (yl := filterY (1 # 10) (gp_axes gp !! 1%nat)).
    destruct (legacy_sideUpdate_other p right left xl yl r0) as [Hm Hp];
      [discriminate|].
    rewrite Hm, <- Hp. simpl app. now apply legacy_sideUpdate_own.
Qed.

Lemma legacy_poll_step p nav now s r rest :
  Legacy.joystickEmitMode p = JOYSTICK_EMIT_ON_CHANGE ->
  Legacy.eachChanged (at_side (Legacy.prevAxesRef (fst (Legacy.pollGamepad p nav now r))) s) rest ->
  Legacy.eachChanged (at_side (Legacy.prevAxesRef r) s)
    (movesOf s (snd (Legacy.pollGamepad p nav now r)) ++ rest).
Proof.
  intros Hmode. unfold Legacy.pollGamepad.
  destruct (gamepadAt (getGamepads nav) (Legacy.id p)) as [gp|]; [|simpl; auto].
  rewrite legacy_andThen_fst, legacy_andThen_snd, movesOf_app.
  rewrite legacy_buttons_no_moves, app_nil_r.
  rewrite (proj1 (legacy_buttons_keep_axes p (gp_buttons gp) 0 _)).
  now apply legacy_axesUpdate_step.
Qed.

(** The earlier version under [JOYSTICK_EMIT_ON_CHANGE] never reports the
    same pair twice in a row: over any run of frames of one loop, from any
    refs, every move call of a side differs (in dx or in dy) from the call
    before it, and the first differs from the pair remembered at the start,
    which on a new instance is (0, 0). *)
Theorem legacy_on_change_never_repeats
    (p : Legacy.GamepadJoystickProps) (frames : list (Navigator * Q))
    (r : Legacy.Refs) (s : Side) :
  Legacy.joystickEmitMode p = JOYSTICK_EMIT_ON_CHANGE ->
  Legacy.eachChanged (at_side (Legacy.prevAxesRef r) s)
    (movesOf s (snd (Legacy.pollAll p frames r))).
Proof.
  intros Hmode. revert r.
  induction frames as [|[nav now] frames IH]; intros r; [exact I|].
  cbn [Legacy.pollAll]. rewrite legacy_andThen_snd, movesOf_app.
  apply legacy_poll_step; [exact Hmode | apply IH].
Qed.

Lemma legacy_on_change_never_repeats_witness :
  let frames := [ (only (leftStickAt (1 # 2)), 40); (only (leftStickAt (1 # 2)), 80);
                  (only (leftStickAt 0), 120); (only (leftStickAt 0), 160) ]%Q in
  Legacy.eachChanged {| dx := 0; dy := 0 |}
    (movesOf left (snd (Legacy.pollAll (Legacy.defaultProps 0) frames Legacy.initialRefs))).
Proof.
  intros frames.
  apply (legacy_on_change_never_repeats (Legacy.defaultProps 0) frames
           Legacy.initialRefs left).
  reflexivity.
Defined.

(** The run of the witness reports the push and the release, once each. *)
Example legacy_push_and_release :
  movesOf left
    (snd (Legacy.pollAll (Legacy.defaultProps 0)
            [ (only (leftStickAt (1 # 2)), 40); (only (leftStickAt (1 # 2)), 80);
              (only (leftStickAt 0), 120); (only (leftStickAt 0), 160) ]%Q
            Legacy.initialRefs))
  = [(1 # 2, 0); (0, 0)]%Q.
Proof. reflexivity. Qed.

End LegacyAxes.

Section LegacyAgainstCurrent.
Import Joystick.

Lemma legacy_loop_matches p l i0 (rl : Legacy.Refs) (rc : Refs) :
  Legacy.prevButtonsRef rl = prevButtonsRef rc ->
  snd (Legacy.forEachFrom (Legacy.buttonStep p) l i0 rl)
  = snd (forEachFrom (buttonStep (Legacy.toCurrent p)) l i0 rc)
  /\ Legacy.prevButtonsRef (fst (Legacy.forEachFrom (Legacy.buttonStep p) l i0 rl))
     = prevButtonsRef (fst (forEachFrom (buttonStep (Legacy.toCurrent p)) l i0 rc)).
Proof.
  revert i0 rl rc. induction l as [|btn l IH]; intros i0 rl rc Hcells; [now split|].
  cbn [Legacy.forEachFrom forEachFrom].
  rewrite legacy_andThen_fst, legacy_andThen_snd, andThen_fst, andThen_snd.
  destruct (IH (S i0) (fst (Legacy.buttonStep p btn i0 rl))
              (fst (buttonStep (Legacy.toCurrent p) btn i0 rc))) as [Hev Hc].
  { simpl. now rewrite Hcells. }
  rewrite Hev, Hc. split; [|reflexivity]. f_equal.
  unfold Legacy.buttonStep, buttonStep, buttonCalls, prevValueOf, isTrigger.
  cbn [snd Legacy.toCurrent triggerThreshold triggerEpsilon onButtonBinary onButtonAnalog].
  now rewrite Hcells.
Qed.

Lemma legacy_allow_matches p now (rl : Legacy.Refs) (rc : Refs) :
  Legacy.lastUpdateRef rl = lastEmitTimeRef rc ->
  Legacy.allowAxesUpdate p now rl = shouldEmit (Legacy.toCurrent p) now rc.
Proof.
  intros Ht. unfold Legacy.allowAxesUpdate, shouldEmit, intervalMs.
  cbn [Legacy.toCurrent joystickRateHz]. now rewrite Ht.
Qed.

Lemma legacy_axes_always p gp now rl :
  Legacy.joystickEmitMode p = JOYSTICK_EMIT_ALWAYS ->
  let pc := Legacy.toCurrent p in
  snd (Legacy.axesUpdate p gp now rl)
  = (if callbackOf pc left && Legacy.allowAxesUpdate p now rl
     then [JoystickMove left (dx (atLeft (axesRaw pc gp))) (dy (atLeft (axesRaw pc gp)))]
     else [])
    ++ (if callbackOf pc right && Legacy.allowAxesUpdate p now rl
        then [JoystickMove right (dx (atRight (axesRaw pc gp))) (dy (atRight (axesRaw pc gp)))]
        else [])
  /\ Legacy.prevButtonsRef (fst (Legacy.axesUpdate p gp now rl)) = Legacy.prevButtonsRef rl
  /\ Legacy.lastUpdateRef (fst (Legacy.axesUpdate p gp now rl))
     = if Legacy.allowAxesUpdate p now rl then now else Legacy.lastUpdateRef rl.
Proof.
  intros Hmode pc. unfold Legacy.axesUpdate.
  destruct (Legacy.allowAxesUpdate p now rl);
    [|rewrite !andb_false_r; repeat split].
  cbv zeta. rewrite legacy_andThen_snd, legacy_andThen_fst.
  unfold Legacy.sideUpdate. rewrite Hmode. cbn [orb].
  unfold pc. cbn [callbackOf Legacy.callbackOf Legacy.toCurrent
                   onLeftJoystickMove onRightJoystickMove].
  destruct (Legacy.onLeftJoystickMove p), (Legacy.onRightJoystickMove p);
    repeat split.
Qed.

Lemma sideCalls_always pc e next s r :
  joystickEmitMode pc = JOYSTICK_EMIT_ALWAYS ->
  sideCalls pc e next s r
  = if callbackOf pc s && e then [JoystickMove s (dx next) (dy next)] else [].
Proof. intros Hmode. unfold sideCalls. now rewrite Hmode. Qed.

Lemma legacy_frame_matches p nav now (rl : Legacy.Refs) (rc : Refs) :
  Legacy.joystickEmitMode p = JOYSTICK_EMIT_ALWAYS ->
  Legacy.sameCells rl rc ->
  snd (Legacy.pollGamepad p nav now rl) = snd (poll (Legacy.toCurrent p) nav now rc)
  /\ Legacy.sameCells (fst (Legacy.pollGamepad p nav now rl))
       (fst (poll (Legacy.toCurrent p) nav now rc)).
Proof.
  intros Hmode [Ht Hcells]. unfold Legacy.pollGamepad, poll.
  change (id (Legacy.toCurrent p)) with (Legacy.id p).
  destruct (gamepadAt (getGamepads nav) (Legacy.id p)) as [gp|];
    [|split; [reflexivity | now split]].
  destruct (legacy_axes_always p gp now rl Hmode) as (Haxes & Hkeep & Htime).
  cbv zeta in Haxes.
  destruct (legacy_loop_matches p (gp_buttons gp) 0
              (fst (Legacy.axesUpdate p gp now rl))
              (afterAxes (Legacy.toCurrent p) gp rc)) as [Hev Hc].
  { rewrite Hkeep. exact Hcells. }
  rewrite legacy_andThen_snd, legacy_andThen_fst.
  rewrite processFrame_events, processFrame_refs. cbv zeta. unfold forEach.
  rewrite !(sideCalls_always (Legacy.toCurrent p)) by exact Hmode.
  rewrite <- (legacy_allow_matches p now rl rc Ht).
  split.
  - now rewrite Haxes, Hev, app_assoc.
  - split.
    + rewrite (proj2 (legacy_buttons_keep_axes p (gp_buttons gp) 0 _)), Htime.
      destruct (buttons_keep_axes (Legacy.toCurrent p) (gp_buttons gp) 0
                  (afterAxes (Legacy.toCurrent p) gp rc)) as (Hlast & _).
      destruct (Legacy.allowAxesUpdate p now rl); simpl; [reflexivity|].
      now rewrite Hlast.
    + rewrite Hc. now destruct (Legacy.allowAxesUpdate p now rl).
Qed.

(** Under [JOYSTICK_EMIT_ALWAYS] the two versions of the hook behave alike:
    started with the same last-update time and the same remembered button
    values, the earlier version and the later one with deadzone 0.1 make
    the same calls, in the same order, over any run of frames, and stay in
    agreement on those cells. *)
Theorem legacy_matches_current_under_emit_always
    (p : Legacy.GamepadJoystickProps) (frames : list (Navigator * Q))
    (rl : Legacy.Refs) (rc : Refs) :
  Legacy.joystickEmitMode p = JOYSTICK_EMIT_ALWAYS ->
  Legacy.sameCells rl rc ->
  snd (Legacy.pollAll p frames rl) = snd (pollAll (Legacy.toCurrent p) frames rc)
  /\ Legacy.sameCells (fst (Legacy.pollAll p frames rl))
       (fst (pollAll (Legacy.toCurrent p) frames rc)).
Proof.
  intros Hmode. revert rl rc.
  induction frames as [|[nav now] frames IH]; intros rl rc Hsame; [now split|].
  cbn [Legacy.pollAll pollAll].
  rewrite legacy_andThen_snd, legacy_andThen_fst, andThen_snd, andThen_fst.
  destruct (legacy_frame_matches p nav now rl rc Hmode Hsame) as [Hev Hnext].
  destruct (IH _ _ Hnext) as [Hevs Hlast].
  now rewrite Hev, Hevs.
Qed.

Lemma legacy_matches_current_under_emit_always_witness :
  let p := {| Legacy.id := 0; Legacy.onLeftJoystickMove := true;
              Legacy.onRightJoystickMove := false; Legacy.onButtonBinary := true;
              Legacy.onButtonAnalog := true; Legacy.joystickRateHz := 30;
              Legacy.joystickEmitMode := JOYSTICK_EMIT_ALWAYS;
              Legacy.triggerThreshold := 1 # 10; Legacy.triggerEpsilon := 1 # 100 |} in
  let frames := [ (only (leftTriggerAt 1), 40); (only (leftStickAt (1 # 2)), 50);
                  (None, 60); (only (leftStickAt (1 # 20)), 90) ]%Q in
  snd (Legacy.pollAll p frames Legacy.initialRefs)
  = snd (pollAll (Legacy.toCurrent p) frames initialRefs).
Proof.
  intros p frames.
  apply (legacy_matches_current_under_emit_always p frames Legacy.initialRefs initialRefs);
    [reflexivity | split; reflexivity].
Defined.

End LegacyAgainstCurrent.

(** * Properties of the sample component *)

Section Selection.
Import Manager Controls.

Lemma markBusy_true_owns i gps :
  Forall (fun g => truthy (busy g) = false) gps ->
  Forall (fun g => truthy (busy g) = hasIndex i g) (markBusy i true gps).
Proof.
  induction 1 as [|g gps Hg _ IH]; simpl; constructor; [|exact IH].
  destruct (hasIndex i g) eqn:Hi; simpl.
  - now rewrite hasIndex_setBusy, Hi.
  - now rewrite Hi.
Qed.

Lemma markBusy_false_frees i gps :
  Forall (fun g => truthy (busy g) = hasIndex i g) gps ->
  Forall (fun g => truthy (busy g) = false) (markBusy i false gps).
Proof.
  induction 1 as [|g gps Hg _ IH]; simpl; constructor; [|exact IH].
  destruct (hasIndex i g) eqn:Hi; [reflexivity | congruence].
Qed.

Lemma autoSelect_owns st : ownsSelected st -> ownsSelected (autoSelect st).
Proof.
  unfold ownsSelected, autoSelect.
  destruct (selectedId st) as [s|] eqn:Hs; [now rewrite Hs|].
  destruct (nextAvailable (gamepads st)) as [n|]; simpl; [|now rewrite Hs].
  apply markBusy_true_owns.
Qed.

Lemma click_owns gp st i :
  index gp = Some i -> ownsSelected st -> ownsSelected (click gp st).
Proof.
  intros Hi. unfold ownsSelected, click. rewrite Hi. simpl.
  intros Hown. apply markBusy_true_owns.
  destruct (selectedId st) as [s|]; [now apply markBusy_false_frees | exact Hown].
Qed.

(** The selection logic of the sample keeps the busy flags in step with the
    selection: starting from a state in which the busy descriptors are
    exactly those of the selected slot (none when nothing is selected), any
    sequence of auto-select effects and of clicks on listed devices leads to
    such a state again, so at most one slot is ever claimed; and the
    auto-select effect does nothing once a device is selected. *)
Theorem selection_owns_one_slot (actions : list UiAction) (st : State) :
  ownsSelected st ->
  Forall onSlotted actions ->
  ownsSelected (uiAfter actions st)
  /\ (forall s, selectedId st = Some s -> autoSelect st = st)
  /\ (selectedId (autoSelect st) = None <->
      selectedId st = None /\ nextAvailable (gamepads st) = None).
Proof.
  intros Hown Hall. split; [|split].
  - unfold uiAfter. revert st Hown.
    induction Hall as [|a actions Ha _ IH]; intros st Hown; [exact Hown|].
    simpl. apply IH. destruct a as [|gp]; simpl.
    + now apply autoSelect_owns.
    + destruct Ha as [i Hi]. now apply (click_owns gp st i).
  - intros s Hs. unfold autoSelect. now rewrite Hs.
  - unfold autoSelect. destruct (selectedId st) as [s|] eqn:Hs.
    + rewrite Hs. split; [discriminate | intros [H _]; discriminate].
    + destruct (nextAvailable (gamepads st)) as [n|]; simpl.
      * split; [discriminate | intros [_ H]; discriminate].
      * rewrite Hs. split; auto.
Qed.

Lemma selection_owns_one_slot_witness :
  let st := {| gamepads := Manager.gamepads (hookAfter twoPads []); selectedId := None |} in
  let padB := {| connected := true; id := Some "pad B"; index := Some 1%Z;
                 mapping := Some "standard"; axes := Some 0%nat;
                 buttons := Some 0%nat; battery := None; busy := Some false |} in
  ownsSelected (uiAfter [AutoSelect; Click padB; AutoSelect] st).
Proof.
  intros st padB.
  apply (selection_owns_one_slot [AutoSelect; Click padB; AutoSelect] st).
  - repeat constructor.
  - repeat constructor. now exists 1%Z.
Defined.

(** In the run of the witness the first device is claimed, then released
    for the second. *)
Example selection_moves_the_claim :
  let st := {| gamepads := Manager.gamepads (hookAfter twoPads []); selectedId := None |} in
  let padB := {| connected := true; id := Some "pad B"; index := Some 1%Z;
                 mapping := Some "standard"; axes := Some 0%nat;
                 buttons := Some 0%nat; battery := None; busy := Some false |} in
  selectedId (uiAfter [AutoSelect] st) = Some 0%Z
  /\ List.map busy (gamepads (uiAfter [AutoSelect] st)) = [Some true; Some false]
  /\ selectedId (uiAfter [AutoSelect; Click padB] st) = Some 1%Z
  /\ List.map busy (gamepads (uiAfter [AutoSelect; Click padB] st)) = [Some false; Some true].
Proof. repeat split. Qed.

End Selection.


Section FrequencyWindow.
Import FrequencyMeter.

Lemma triggerAll_snoc proto w calls c st :
  triggerAll proto w (calls ++ [c]) st
  = match trigger proto w (fst c) (snd c) (triggerAll proto w calls st) with
    | Some st' => st'
    | None => triggerAll proto w calls st
    end.
Proof. unfold triggerAll. now rewrite fold_left_app. Qed.

Lemma timesOf_snoc i calls c :
  timesOf i (calls ++ [c])
  = timesOf i calls ++ (if String.eqb (fst c) i then [snd c] else []).
Proof.
  unfold timesOf. rewrite List.filter_app, List.map_app. simpl.
  now destruct (String.eqb (fst c) i).
Qed.

(** When the call returns, it has pushed onto the window of its id and
    left the other windows alone. *)
Lemma window_trigger proto w j now st st' i :
  trigger proto w j now st = Some st' ->
  window st' i = if String.eqb j i then pushed w (window st i) now else window st i.
Proof.
  unfold trigger, window. intros Hst.
  assert (Hkeys : timestamps st'
                  = <[j := pushed w (match timestamps st !! j with
                                     | Some ts => ts
                                     | None => []
                                     end) now]> (timestamps st)).
  { destruct (timestamps st !! j) as [ts0|].
    - now injection Hst as <-.
    - destruct (inherited proto j); [discriminate|]. now injection Hst as <-. }
  rewrite Hkeys. destruct (String.eqb_spec j i) as [-> | Hne].
  - now rewrite lookup_insert_eq.
  - now rewrite lookup_insert_ne.
Qed.

(** The call throws exactly for an inherited name that has no window of its
    own. *)
Lemma trigger_throws proto w i now st :
  trigger proto w i now st = None
  <-> inherited proto i = true /\ timestamps st !! i = None.
Proof.
  unfold trigger. destruct (timestamps st !! i) as [ts0|].
  - split; [discriminate | intros [_ H]; discriminate].
  - destruct (inherited proto i); split; auto; try discriminate.
    intros [H _]. discriminate.
Qed.

Lemma trigger_keeps_noInheritedKeys proto w j now st st' :
  noInheritedKeys proto st ->
  trigger proto w j now st = Some st' ->
  noInheritedKeys proto st'.
Proof.
  intros Hinv Hst i Hi.
  assert (Hne : j <> i).
  { intros ->. unfold trigger in Hst. rewrite (Hinv i Hi), Hi in Hst. discriminate. }
  unfold trigger in Hst.
  destruct (timestamps st !! j) as [ts0|].
  - injection Hst as <-. simpl. rewrite lookup_insert_ne by exact Hne. now apply Hinv.
  - destruct (inherited proto j); [discriminate|].
    injection Hst as <-. simpl. rewrite lookup_insert_ne by exact Hne. now apply Hinv.
Qed.

Lemma triggerAll_noInheritedKeys proto w calls :
  noInheritedKeys proto (triggerAll proto w calls initial).
Proof.
  induction calls as [|c calls IH] using rev_ind.
  - intros i _. apply lookup_empty.
  - rewrite triggerAll_snoc.
    destruct (trigger proto w (fst c) (snd c) (triggerAll proto w calls initial))
      as [st'|] eqn:Hst; [|exact IH].
    exact (trigger_keeps_noInheritedKeys proto w (fst c) (snd c) _ st' IH Hst).
Qed.

Lemma pushed_suffix w ts now :
  exists dropped, ts ++ [now] = dropped ++ pushed w ts now.
Proof.
  unfold pushed.
  destruct (Qgt_bool (inject_Z (Z.of_nat (length (ts ++ [now])))) w).
  - destruct ts as [|a ts]; [exists [now] | exists [a]]; reflexivity.
  - now exists [].
Qed.

Lemma pushed_length w ts now :
  (ts = [] \/ (inject_Z (Z.of_nat (length ts)) <= w)%Q) ->
  pushed w ts now = [] \/ (inject_Z (Z.of_nat (length (pushed w ts now))) <= w)%Q.
Proof.
  intros Hts. unfold pushed.
  destruct (Qgt_bool (inject_Z (Z.of_nat (length (ts ++ [now])))) w) eqn:Hgt.
  - destruct ts as [|a ts]; [now left|]. right.
    destruct Hts as [Hnil | Hle]; [discriminate|].
    simpl tail. rewrite List.length_app. simpl length in *.
    replace (length ts + 1)%nat with (S (length ts)) by lia. exact Hle.
  - right. now apply Qgt_bool_false.
Qed.

Lemma pushed_room w ts now :
  (inject_Z (Z.of_nat (S (length ts))) <= w)%Q -> pushed w ts now = ts ++ [now].
Proof.
  intros Hle. unfold pushed. rewrite List.length_app. simpl length.
  replace (length ts + 1)%nat with (S (length ts)) by lia.
  apply Qgt_bool_false in Hle. now rewrite Hle.
Qed.

Lemma window_bounded proto w calls i :
  window (triggerAll proto w calls initial) i = []
  \/ (inject_Z (Z.of_nat (length (window (triggerAll proto w calls initial) i))) <= w)%Q.
Proof.
  induction calls as [|c calls IH] using rev_ind; [now left|].
  rewrite triggerAll_snoc.
  destruct (trigger proto w (fst c) (snd c) (triggerAll proto w calls initial))
    as [st'|] eqn:Hst; [|exact IH].
  rewrite (window_trigger _ _ _ _ _ _ i Hst).
  destruct (String.eqb (fst c) i); [now apply pushed_length | exact IH].
Qed.

(** For one loop of calls with a [windowSize] that stays the same.  The
    window of an id that is not an inherited name holds the most recent
    times at which [trigger(id)] was called, in order, and never more than
    [windowSize] of them: it is a suffix of the times of that id, it is
    empty or no longer than [windowSize], as long as the id was triggered
    at most [windowSize] times nothing has been dropped, and a call for
    another id leaves it alone.  For an id that is an inherited name every
    call throws and no window is ever kept. *)
Theorem window_keeps_recent
    (proto : list string) (w : Q) (calls : list (string * Q)) (i : string) :
  let st := triggerAll proto w calls initial in
  (inherited proto i = false ->
     (exists dropped, timesOf i calls = dropped ++ window st i)
     /\ (window st i = [] \/ (inject_Z (Z.of_nat (length (window st i))) <= w)%Q)
     /\ ((inject_Z (Z.of_nat (length (timesOf i calls))) <= w)%Q ->
         window st i = timesOf i calls)
     /\ (forall j now st', j <> i -> trigger proto w j now st = Some st' ->
           window st' i = window st i))
  /\ (inherited proto i = true ->
      window st i = [] /\ forall now, trigger proto w i now st = None).
Proof.
  cbv zeta. split.
  - intros Hi. split; [|split; [apply window_bounded|split]].
    + induction calls as [|c calls IH] using rev_ind; [now exists []|].
      destruct IH as [dropped Hsuf].
      rewrite triggerAll_snoc, timesOf_snoc.
      destruct (trigger proto w (fst c) (snd c) (triggerAll proto w calls initial))
        as [st'|] eqn:Hst.
      * rewrite (window_trigger _ _ _ _ _ _ i Hst).
        destruct (String.eqb (fst c) i); [|rewrite app_nil_r; now exists dropped].
        destruct (pushed_suffix w (window (triggerAll proto w calls initial) i) (snd c))
          as [d Hd].
        exists (dropped ++ d). rewrite Hsuf, <- !app_assoc. now rewrite Hd.
      * apply trigger_throws in Hst. destruct Hst as [Hinh _].
        destruct (String.eqb_spec (fst c) i) as [Heq | _];
          [congruence | rewrite app_nil_r; now exists dropped].
    + induction calls as [|c calls IH] using rev_ind; [reflexivity|].
      rewrite triggerAll_snoc, timesOf_snoc.
      destruct (trigger proto w (fst c) (snd c) (triggerAll proto w calls initial))
        as [st'|] eqn:Hst.
      * rewrite (window_trigger _ _ _ _ _ _ i Hst).
        destruct (String.eqb (fst c) i); [|now rewrite app_nil_r].
        intros Hroom. rewrite List.length_app in Hroom. simpl length in Hroom.
        assert (Hprev : (inject_Z (Z.of_nat (length (timesOf i calls))) <= w)%Q).
        { eapply Qle_trans; [|exact Hroom]. unfold Qle. simpl. lia. }
        rewrite (IH Hprev). apply pushed_room.
        replace (S (length (timesOf i calls))) with (length (timesOf i calls) + 1)%nat
          by lia.
        exact Hroom.
      * apply trigger_throws in Hst. destruct Hst as [Hinh _].
        destruct (String.eqb_spec (fst c) i) as [Heq | _];
          [congruence | now rewrite app_nil_r].
    + intros j now st' Hne Hst. rewrite (window_trigger _ _ _ _ _ _ i Hst).
      apply String.eqb_neq in Hne. now rewrite Hne.
  - intros Hi.
    pose proof (triggerAll_noInheritedKeys proto w calls i Hi) as Hnone.
    split.
    + unfold window. now rewrite Hnone.
    + intros now. apply trigger_throws. now split.
Qed.

Lemma window_keeps_recent_witness :
  let calls := [("J1", 10); ("J2", 11); ("J1", 20); ("J1", 30); ("J1", 40)]%Q in
  let st := triggerAll objectPrototypeKeys 3 calls initial in
  (exists dropped, timesOf "J1" calls = dropped ++ window st "J1")
  /\ window st "constructor" = [].
Proof.
  intros calls st. split.
  - destruct (window_keeps_recent objectPrototypeKeys 3 calls "J1") as [Hown _].
    destruct (Hown eq_refl) as [Hsuffix _]. exact Hsuffix.
  - destruct (window_keeps_recent objectPrototypeKeys 3 calls "constructor")
      as [_ Hinherited].
    destruct (Hinherited eq_refl) as [Hempty _]. exact Hempty.
Defined.

(** A window of 3: the fourth event pushes the first one out; the other id
    is not affected; a call with an inherited name throws and stores
    nothing. *)
Example window_of_three :
  let st := triggerAll objectPrototypeKeys 3
              [("J1", 10); ("J2", 11); ("J1", 20); ("constructor", 25);
               ("J1", 30); ("J1", 40)]%Q initial in
  window st "J1" = [20; 30; 40]%Q
  /\ window st "J2" = [11]%Q
  /\ timestamps st !! "constructor" = None
  /\ trigger objectPrototypeKeys 3 "constructor" 50 st = None.
Proof. repeat split. Qed.

End FrequencyWindow.

Section FrequencyValue.
Import FrequencyMeter.

Lemma fold_plus_from l a : (fold_left Qplus l a == a + fold_left Qplus l 0)%Q.
Proof.
  revert a. induction l as [|x l IH]; intros a; simpl.
  - ring.
  - rewrite (IH (a + x)%Q), (IH (0 + x)%Q). ring.
Qed.

Lemma total_cons x l : (total (x :: l) == x + total l)%Q.
Proof.
  unfold total. simpl. rewrite fold_plus_from. ring.
Qed.

Lemma last_any_default {A} (c : A) ts a b : List.last (c :: ts) a = List.last (c :: ts) b.
Proof.
  revert c. induction ts as [|d ts IH]; intros c; [reflexivity|].
  change (List.last (d :: ts) a = List.last (d :: ts) b). apply IH.
Qed.

Lemma last_cons_default {A} (b : A) ts a : List.last (b :: ts) a = List.last ts b.
Proof.
  destruct ts as [|c ts]; [reflexivity|].
  change (List.last (c :: ts) a = List.last (c :: ts) b). apply last_any_default.
Qed.

(** The intervals of a window add up to its span. *)
Lemma intervals_total a ts : (total (intervals (a :: ts)) == List.last ts a - a)%Q.
Proof.
  revert a. induction ts as [|b ts IH]; intros a.
  - unfold total. simpl. ring.
  - change (intervals (a :: b :: ts)) with ((b - a)%Q :: intervals (b :: ts)).
    rewrite total_cons, IH, last_cons_default. ring.
Qed.

Lemma intervals_length a ts : length (intervals (a :: ts)) = length ts.
Proof.
  revert a. induction ts as [|b ts IH]; intros a; [reflexivity|].
  change (intervals (a :: b :: ts)) with ((b - a)%Q :: intervals (b :: ts)).
  cbn [length]. now rewrite IH.
Qed.

(** The frequency of a window of two or more times, through its average
    interval. *)
Lemma frequencyOf_window first b rest :
  frequencyOf (first :: b :: rest)
  = let avg := (total (intervals (first :: b :: rest))
                / inject_Z (Z.of_nat (length (b :: rest))))%Q in
    if Qeq_bool avg 0 then Infinity else Finite (1000 / avg).
Proof.
  unfold frequencyOf. rewrite intervals_length.
  change (intervals (first :: b :: rest))
    with ((b - first)%Q :: intervals (b :: rest)).
  reflexivity.
Qed.

Lemma frequencies_trigger proto w i now st st' :
  trigger proto w i now st = Some st' ->
  frequencies st'
  = if (1 <? length (window st' i))%nat
    then <[i := frequencyOf (window st' i)]> (frequencies st)
    else frequencies st.
Proof.
  intros Hst. rewrite (window_trigger _ _ _ _ _ _ i Hst), String.eqb_refl.
  unfold trigger, window in *.
  destruct (timestamps st !! i) as [ts0|].
  - now injection Hst as <-.
  - destruct (inherited proto i); [discriminate|]. now injection Hst as <-.
Qed.

(** A window of two or more times ends with the time just pushed. *)
Lemma pushed_last w ts now first rest :
  pushed w ts now = first :: rest -> rest <> [] -> List.last rest first = now.
Proof.
  intros Hp Hrest. rewrite <- (last_cons_default first rest now).
  unfold pushed in Hp.
  destruct (Qgt_bool (inject_Z (Z.of_nat (length (ts ++ [now])))) w).
  - destruct ts as [|a ts]; simpl in Hp.
    + discriminate.
    + rewrite <- Hp. apply List.last_last.
  - rewrite <- Hp. apply List.last_last.
Qed.

(** Below a [windowSize] of 2 a window never grows past one time. *)
Lemma pushed_short w ts now :
  (w < 2)%Q -> (length ts <= 1)%nat -> (length (pushed w ts now) <= 1)%nat.
Proof.
  intros Hw Hts. unfold pushed.
  destruct (Qgt_bool (inject_Z (Z.of_nat (length (ts ++ [now])))) w) eqn:Hgt.
  - destruct ts as [|a ts]; [simpl; lia|].
    simpl tail. rewrite List.length_app. simpl length in *. lia.
  - apply Qgt_bool_false in Hgt. rewrite List.length_app in *. simpl length in *.
    destruct ts as [|a ts]; [simpl; lia|]. exfalso.
    apply (Qlt_irrefl w). eapply Qlt_le_trans; [exact Hw|].
    eapply Qle_trans; [|exact Hgt]. unfold Qle. simpl. lia.
Qed.

(** What a call of [trigger(id)] that returns publishes, numbers taken as
    exact rationals.  The frequencies of the other ids stay as they are.
    With a [windowSize] below 2 the window of the id, one time long at
    most, stays so and nothing is published.  In general nothing is
    published while the window holds fewer than two times; when it holds
    [n + 1 >= 2] times, the last of them is the time of the call, the [n]
    intervals add up to the span from the oldest time kept to the time of
    the call, and the value published for the id is [Infinity] if that span
    is zero and the finite number [1000 n / (now - first)] otherwise. *)
Theorem frequency_is_window_rate
    (proto : list string) (w : Q) (i : string) (now : Q) (st st' : State) :
  trigger proto w i now st = Some st' ->
  (forall j, j <> i -> frequencies st' !! j = frequencies st !! j)
  /\ ((w < 2)%Q -> (length (window st i) <= 1)%nat ->
      (length (window st' i) <= 1)%nat /\ frequencies st' = frequencies st)
  /\ ((length (window st' i) <= 1)%nat -> frequencies st' = frequencies st)
  /\ (forall first rest,
        window st' i = first :: rest ->
        rest <> [] ->
        List.last rest first = now
        /\ (total (intervals (first :: rest)) == now - first)%Q
        /\ ((now == first)%Q -> frequencies st' !! i = Some Infinity)
        /\ (~ (now == first)%Q ->
            exists q,
              frequencies st' !! i = Some (Finite q)
              /\ (q == 1000 * inject_Z (Z.of_nat (length rest)) / (now - first))%Q)).
Proof.
  intros Hst.
  pose proof (frequencies_trigger _ _ _ _ _ _ Hst) as Hfreq.
  pose proof (window_trigger _ _ _ _ _ _ i Hst) as Hwin.
  rewrite String.eqb_refl in Hwin.
  assert (Hquiet : (length (window st' i) <= 1)%nat -> frequencies st' = frequencies st).
  { intros Hlen. rewrite Hfreq.
    destruct (Nat.ltb_spec 1 (length (window st' i))); [lia | reflexivity]. }
  split; [|split; [|split; [exact Hquiet|]]].
  - intros j Hne. rewrite Hfreq.
    destruct (1 <? length (window st' i))%nat; [|reflexivity].
    apply lookup_insert_ne. congruence.
  - intros Hw Hlen.
    assert (Hshort : (length (window st' i) <= 1)%nat).
    { rewrite Hwin. now apply pushed_short. }
    split; [exact Hshort | now apply Hquiet].
  - intros first rest Hfirst Hrest.
    assert (Hlast : List.last rest first = now).
    { apply (pushed_last w (window st i)); [congruence | exact Hrest]. }
    assert (Hpub : frequencies st' !! i = Some (frequencyOf (first :: rest))).
    { rewrite Hfreq, Hfirst. destruct rest as [|b rest]; [contradiction|].
      cbn [length]. cbn [Nat.ltb Nat.leb]. apply lookup_insert_eq. }
    destruct rest as [|b rest]; [contradiction|].
    pose proof (intervals_total first (b :: rest)) as Htotal.
    rewrite Hlast in Htotal.
    split; [exact Hlast|]. split; [exact Htotal|].
    rewrite Hpub, frequencyOf_window. cbv zeta.
    set (n := inject_Z (Z.of_nat (length (b :: rest)))) in *.
    assert (Hn : ~ (n == 0)%Q) by (unfold n, Qeq; simpl; lia).
    split.
    + intros Hsame.
      assert (Hzero : (total (intervals (first :: b :: rest)) / n == 0)%Q).
      { rewrite Htotal, Hsame. unfold Qdiv. ring. }
      apply Qeq_bool_iff in Hzero. now rewrite Hzero.
    + intros Hspan.
      assert (Hd : ~ (now - first == 0)%Q).
      { intros H. apply Hspan.
        apply Qeq_trans with (now - first + first)%Q; [ring|].
        rewrite H. ring. }
      destruct (Qeq_bool (total (intervals (first :: b :: rest)) / n) 0) eqn:Havg.
      * exfalso. apply Qeq_bool_iff in Havg. apply Hd.
        rewrite <- Htotal.
        apply Qeq_trans with (total (intervals (first :: b :: rest)) / n * n)%Q;
          [field; exact Hn|].
        rewrite Havg. ring.
      * eexists. split; [reflexivity|].
        rewrite Htotal. field. split; assumption.
Qed.

Lemma frequency_is_window_rate_witness :
  let st := triggerAll objectPrototypeKeys 3 [("J1", 100%Q); ("J1", 120%Q)] initial in
  exists st',
    trigger objectPrototypeKeys 3 "J1" 140 st = Some st'
    /\ exists q, frequencies st' !! "J1" = Some (Finite q) /\ (q == 50)%Q.
Proof.
  intros st. eexists. split; [reflexivity|].
  destruct (frequency_is_window_rate objectPrototypeKeys 3 "J1" 140 st _ eq_refl)
    as (_ & _ & _ & Hrate).
  destruct (Hrate 100%Q [120%Q; 140%Q] eq_refl ltac:(discriminate))
    as (_ & _ & _ & Hfinite).
  destruct Hfinite as (q & Hq & Hval); [discriminate|].
  exists q. split; [exact Hq|]. rewrite Hval. reflexivity.
Defined.

(** Three events 20 ms apart show 50 Hz; two events at the same time show
    [Infinity]. *)
Example fifty_hertz :
  (exists q, frequencyOf [100%Q; 120%Q; 140%Q] = Finite q /\ (q == 50)%Q)
  /\ frequencyOf [5%Q; 5%Q] = Infinity.
Proof. split; [eexists; split; reflexivity | reflexivity]. Qed.

End FrequencyValue.
